(** * resume-gpt-tailor: the text pipeline of [app.py]

    A shallow embedding of the helper functions of [app.py]
    ([extract_keywords], [extract_job_title_and_company],
    [extract_name_from_resume], [compute_ats_score],
    [clean_job_description], [highlight_keywords], [text_to_docx], the
    three [gpt_*] functions) and of the handler of the [Generate] button,
    together with the part of Python's [str] and [re] they rely on.

    A Python [str] is a sequence of code points.  The development covers
    the texts whose code points lie in U+0000..U+00FF, so that a character
    is an [ascii] (eight bits) and a text a [list ascii]; the character
    classes below are Python's on that range. *)

From Stdlib Require Import Ascii String List NArith Lia Bool Floats.
From stdpp Require Import base list strings gmap sorting.

Local Open Scope N_scope.
Local Open Scope nat_scope.
Local Open Scope list_scope.

(** ** Characters and [str] methods *)

Module Py.

Definition text := list ascii.

(** A text literal. *)
Definition txt (s : string) : text := list_ascii_of_string s.

Definition code (a : ascii) : N := N_of_ascii a.

Definition between (lo hi : N) (a : ascii) : bool :=
  ((lo <=? code a) && (code a <=? hi))%N.

Definition is_code (n : N) (a : ascii) : bool := (code a =? n)%N.

(** [[A-Z]], [[a-z]], [[0-9]] (no flag). *)
Definition is_upper_az : ascii → bool := between 65 90.
Definition is_lower_az : ascii → bool := between 97 122.
Definition is_digit09 : ascii → bool := between 48 57.
Definition is_letter (a : ascii) : bool := is_lower_az a || is_upper_az a.

(** [str.isspace], which is also the class [\s] of [re] on [str]. *)
Definition is_space (a : ascii) : bool :=
  between 9 13 a || between 28 32 a || is_code 133 a || is_code 160 a.

(** The class [\w] of [re] on [str]: alphanumeric characters and the
    underscore. *)
Definition is_word (a : ascii) : bool :=
  is_letter a || is_digit09 a || is_code 95 a
  || is_code 170 a || between 178 179 a || is_code 181 a
  || between 185 186 a || between 188 190 a
  || between 192 214 a || between 216 246 a || between 248 255 a.

(** The line boundaries of [str.splitlines]. *)
Definition is_linebreak (a : ascii) : bool :=
  between 10 13 a || between 28 30 a || is_code 133 a.

Definition LF : ascii := ascii_of_N 10.
Definition CR : ascii := ascii_of_N 13.

(** [str.lower], character by character. *)
Definition to_lower (a : ascii) : ascii :=
  if between 65 90 a || between 192 214 a || between 216 222 a
  then ascii_of_N (code a + 32) else a.

(** The upper-case partner a case-insensitive class also tries; the two
    letters whose capital lies beyond U+00FF keep their own code. *)
Definition to_upper (a : ascii) : ascii :=
  if between 97 122 a || between 224 246 a || between 248 254 a
  then ascii_of_N (code a - 32) else a.

Definition lower (s : text) : text := map to_lower s.

Fixpoint lstrip (s : text) : text :=
  match s with
  | a :: s' => if is_space a then lstrip s' else s
  | [] => []
  end.

Definition rstrip (s : text) : text := rev (lstrip (rev s)).

(** [s.strip()] *)
Definition strip (s : text) : text := lstrip (rstrip s).

(** [s.splitlines()]: the lines without their terminators; CR LF is one
    terminator; no empty last line after a final terminator. *)
Fixpoint splitlines (s : text) : list text :=
  match s with
  | [] => []
  | a :: s' =>
      if is_linebreak a then
        match s' with
        | b :: s'' =>
            if is_code 13 a && is_code 10 b then [] :: splitlines s''
            else [] :: splitlines s'
        | [] => [[]]
        end
      else
        match splitlines s' with
        | l :: ls => (a :: l) :: ls
        | [] => [[a]]
        end
  end.

(** [s.split()]: the maximal runs of characters that are not whitespace. *)
Fixpoint split (s : text) : list text :=
  match s with
  | [] => []
  | a :: s' =>
      if is_space a then split s'
      else
        match s' with
        | b :: _ =>
            if is_space b then [a] :: split s'
            else match split s' with
                 | w :: ws => (a :: w) :: ws
                 | [] => [[a]]
                 end
        | [] => [[a]]
        end
  end.

(** [sep.join(parts)] *)
Fixpoint join (sep : text) (parts : list text) : text :=
  match parts with
  | [] => []
  | [p] => p
  | p :: ps => p ++ sep ++ join sep ps
  end.

Fixpoint startswith (pre s : text) : bool :=
  match pre, s with
  | [], _ => true
  | c :: pre', a :: s' => if decide (c = a) then startswith pre' s' else false
  | _ :: _, [] => false
  end.

(** [sub in s] *)
Fixpoint contains (sub s : text) : bool :=
  startswith sub s ||
  match s with
  | _ :: s' => contains sub s'
  | [] => false
  end.

End Py.

Import Py.

(** ** The fragment of Python's [re] used by the program

    A backtracking matcher in continuation-passing style.  The subject is
    walked from left to right; [p] is the character just before the
    current position ([None] at the start of the text), which is what the
    assertion [\b] looks at.  Quantifiers are greedy and apply to a
    character class, alternation is ordered, and there is one capturing
    group: this covers every pattern of [app.py] and the token pattern of
    the vectorizer. *)

Module Re.

Inductive regex : Type :=
  | Eps                                            (* empty pattern *)
  | Chr (f : ascii → bool)                         (* one character of a class *)
  | Rep (f : ascii → bool) (lo : nat) (hi : option nat)  (* class{lo,hi}, greedy *)
  | Bnd                                            (* \b *)
  | Seq (r1 r2 : regex)
  | Alt (r1 r2 : regex)                            (* r1|r2 *)
  | Grp (r : regex).                               (* ( r ), group 1 *)

(** Classes.  [ci] is the effect of the flag [re.IGNORECASE] on a class or
    a literal character, for the characters of U+0000..U+00FF.  (Beyond
    them [re] also lets U+0130 and U+0131 stand for i, U+017F for s and
    U+212A for k.) *)
Definition lit (c : ascii) : ascii → bool := λ a, bool_decide (a = c).
Definition ci (f : ascii → bool) : ascii → bool :=
  λ a, f a || f (to_lower a) || f (to_upper a).
Definition any_but_newline : ascii → bool := λ a, negb (is_code 10 a).

(** A literal string, as [re.escape] makes it. *)
Fixpoint lits (icase : bool) (s : text) : regex :=
  match s with
  | [] => Eps
  | c :: s' => Seq (Chr (if icase then ci (lit c) else lit c)) (lits icase s')
  end.

Definition word_opt (p : option ascii) : bool :=
  match p with Some a => is_word a | None => false end.

(** [\b] holds between a word character and a character that is none, the
    two ends of the text counting as none. *)
Definition is_bnd (p : option ascii) (s : text) : bool :=
  xorb (word_opt p) (word_opt (head s)).

Definition more (hi : option nat) : bool :=
  match hi with Some 0 => false | _ => true end.
Definition dec (hi : option nat) : option nat :=
  match hi with Some n => Some (pred n) | None => None end.

Section Matcher.
Context {R : Type}.

(** What follows a sub-pattern: the previous character, the rest of the
    subject and the text of group 1 so far. *)
Definition cont : Type := option ascii → text → option text → option R.

(** Greedy repetition: take one more character when allowed, fall back to
    stopping here when the rest of the pattern fails further on. *)
Fixpoint rep (f : ascii → bool) (lo : nat) (hi : option nat)
    (p : option ascii) (s : text) (g : option text) (k : cont) : option R :=
  let stop := match lo with 0 => k p s g | S _ => None end in
  match s with
  | a :: s' =>
      if f a && more hi then
        match rep f (pred lo) (dec hi) (Some a) s' g k with
        | Some x => Some x
        | None => stop
        end
      else stop
  | [] => stop
  end.

Fixpoint run (r : regex) (p : option ascii) (s : text) (g : option text)
    (k : cont) : option R :=
  match r with
  | Eps => k p s g
  | Chr f =>
      match s with
      | a :: s' => if f a then k (Some a) s' g else None
      | [] => None
      end
  | Rep f lo hi => rep f lo hi p s g k
  | Bnd => if is_bnd p s then k p s g else None
  | Seq r1 r2 => run r1 p s g (λ p' s' g', run r2 p' s' g' k)
  | Alt r1 r2 =>
      match run r1 p s g k with
      | Some x => Some x
      | None => run r2 p s g k
      end
  | Grp r1 =>
      run r1 p s g (λ p' s' _, k p' s' (Some (take (length s - length s') s)))
  end.
End Matcher.

(** A match at the current position: its length and the text of group 1.
    With [must_advance] an empty match is refused, and the matcher
    backtracks for another one (the rule of [findall] and [sub] after an
    empty match). *)
Definition attempt (must_advance : bool) (r : regex) (p : option ascii)
    (s : text) : option (nat * option text) :=
  run r p s None
    (λ _ s' g, let n := length s - length s' in
               if must_advance && (n =? 0) then None else Some (n, g)).

(** [re.search]: the match at the leftmost position that has one. *)
Fixpoint search_from (r : regex) (p : option ascii) (s : text)
    : option (nat * option text) :=
  match attempt false r p s with
  | Some m => Some m
  | None =>
      match s with
      | a :: s' => search_from r (Some a) s'
      | [] => None
      end
  end.

Definition search (r : regex) (s : text) : option (nat * option text) :=
  search_from r None s.

(** [m.group(1)] *)
Definition group1 (m : nat * option text) : text := default [] (snd m).

(** The successive non-overlapping matches, as [findall] and [sub] find
    them: the subject cut into the characters outside any match and the
    matches. *)
Inductive segment : Type :=
  | Gap (a : ascii)
  | Hit (w : text) (g : option text).

(** The matches that start at one position: one match, or an empty match
    followed by a non-empty one. *)
Definition hits_at (r : regex) (p : option ascii) (s : text)
    : list (nat * option text) :=
  match attempt false r p s with
  | None => []
  | Some (0, g) =>
      (0, g) :: match attempt true r p s with Some m => [m] | None => [] end
  | Some m => [m]
  end.

Definition hit_len (hs : list (nat * option text)) : nat :=
  match last hs with Some (n, _) => n | None => 0 end.

Definition to_hit (s : text) (m : nat * option text) : segment :=
  Hit (take (fst m) s) (snd m).

(** [skip] counts the characters of the current match still to pass. *)
Fixpoint scan_from (r : regex) (p : option ascii) (s : text) (skip : nat)
    : list segment :=
  match s with
  | [] =>
      match skip with
      | 0 => map (to_hit s) (hits_at r p s)
      | S _ => []
      end
  | a :: s' =>
      match skip with
      | S n => scan_from r (Some a) s' n
      | 0 =>
          let hs := hits_at r p s in
          map (to_hit s) hs ++
          match hit_len hs with
          | 0 => Gap a :: scan_from r (Some a) s' 0
          | S n => scan_from r (Some a) s' n
          end
      end
  end.

Definition scan (r : regex) (s : text) : list segment := scan_from r None s 0.

(** [re.findall(r, s)] for a pattern without group: the matched texts. *)
Definition findall (r : regex) (s : text) : list text :=
  omap (λ x, match x with Hit w _ => Some w | Gap _ => None end) (scan r s).

(** [r.sub(repl, s)] where [repl] is a function of the text of group 1. *)
Definition sub (r : regex) (repl : text → text) (s : text) : text :=
  concat (map (λ x, match x with
                    | Hit _ g => repl (default [] g)
                    | Gap a => [a]
                    end) (scan r s)).

End Re.

Import Re.


(** ** Orders on texts and [sorted] *)

(** Python compares two [str] lexicographically by code point. *)
Fixpoint text_leb (a b : text) : bool :=
  match a, b with
  | [], _ => true
  | _ :: _, [] => false
  | x :: a', y :: b' =>
      if (code x <? code y)%N then true
      else if (code x =? code y)%N then text_leb a' b'
      else false
  end.

Definition text_le (a b : text) : Prop := text_leb a b.

(** The key order of [sorted(..., key=len, reverse=True)]. *)
Definition longer_first (a b : text) : Prop := length b ≤ length a.

#[global] Instance text_le_dec : RelDecision text_le :=
  λ a b, Is_true_dec (text_leb a b).
#[global] Instance longer_first_dec : RelDecision longer_first :=
  λ a b, Nat.le_dec (length b) (length a).

(** ** The functions of [app.py] *)

(** [r"\b[a-zA-Z]{4,}\b"] *)
Definition keyword_re : regex :=
  Seq Bnd (Seq (Rep is_letter 4 None) Bnd).

(** [extract_keywords(text)]: [sorted(set(words))]. *)
Definition extract_keywords (text_ : text) : list text :=
  let words := findall keyword_re (lower text_) in
  merge_sort text_le (elements (list_to_set words : gset text)).

(** [r"(?i)(?:title|position|role)[:\-]?\s*(.+)"] *)
Definition title_re : regex :=
  Seq (Alt (lits true (txt "title"))
        (Alt (lits true (txt "position")) (lits true (txt "role"))))
   (Seq (Rep (ci (λ a, is_code 58 a || is_code 45 a)) 0 (Some 1))
    (Seq (Rep is_space 0 None)
      (Grp (Rep any_but_newline 1 None)))).

(** [r"(?i)at ([A-Z][a-zA-Z0-9& ]+)"] *)
Definition company_class (a : ascii) : bool :=
  is_lower_az a || is_upper_az a || is_digit09 a || is_code 38 a || is_code 32 a.

Definition company_re : regex :=
  Seq (lits true (txt "at "))
    (Grp (Seq (Chr (ci is_upper_az)) (Rep (ci company_class) 1 None))).

Definition your_career (line : text) : bool :=
  contains (txt "your") (lower line) && contains (txt "career") (lower line).

(** The loop over the lines, left at the first line with both words. *)
Fixpoint career_loop (lines : list text) (job_title : text) : text :=
  match lines with
  | [] => job_title
  | line :: rest =>
      if your_career line then strip line else career_loop rest job_title
  end.

Definition extract_job_title_and_company (job_desc : text) : text * text :=
  let job_title :=
    match search title_re job_desc with
    | Some m => strip (group1 m)
    | None => []
    end in
  let job_title :=
    if your_career job_desc then career_loop (splitlines job_desc) job_title
    else job_title in
  let company :=
    match search company_re job_desc with
    | Some m => strip (group1 m)
    | None => []
    end in
  let company :=
    if bool_decide (company = []) && contains (txt "moneris") (lower job_desc)
    then txt "Moneris" else company in
  (job_title, company).

(** [extract_name_from_resume(resume_text)]; [None] is the [IndexError] of
    [...splitlines()[0]] on an empty list. *)
Definition extract_name_from_resume (resume_text : text) : option text :=
  first_line ← splitlines (strip resume_text) !! 0;
  Some (if bool_decide (length (split first_line) ≤ 5) then strip first_line
        else []).

Definition cutoff_keywords : list text :=
  [txt "why join us"; txt "who we are"; txt "what we offer";
   txt "equal opportunity"; txt "requirements for success"].

Definition is_cutoff (line : text) : bool :=
  existsb (λ kw, contains kw (lower line)) cutoff_keywords.

(** The loop of [clean_job_description]: [filtered] grows until the first
    line with a marker. *)
Fixpoint clean_loop (lines : list text) (filtered : list text) : list text :=
  match lines with
  | [] => filtered
  | line :: rest =>
      if is_cutoff line then filtered else clean_loop rest (filtered ++ [line])
  end.

Definition clean_job_description (text_ : text) : text :=
  strip (join [LF] (clean_loop (splitlines text_) [])).

(** [rf"\b({re.escape(kw)})\b"] with [re.IGNORECASE] *)
Definition highlight_re (kw : text) : regex :=
  Seq Bnd (Seq (Grp (lits true kw)) Bnd).

(** The replacement [r"**\1**"]. *)
Definition emphasis (g : text) : text := txt "**" ++ g ++ txt "**".

(** [sorted(set(keywords), key=len, reverse=True)]; the order of the set
    among keywords of one length is not determined by the program. *)
Definition highlight_order (keywords : list text) : list text :=
  merge_sort longer_first (elements (list_to_set keywords : gset text)).

Definition highlight_keywords (text_ : text) (keywords : list text) : text :=
  foldl (λ t kw, sub (highlight_re kw) emphasis t) text_ (highlight_order keywords).

(** ** The similarity score

    [compute_ats_score] hands the two texts to scikit-learn.  The model
    follows [TfidfVectorizer()] with its default parameters and
    [cosine_similarity] on sparse rows; the binary64 arithmetic of numpy is
    a parameter. *)

Class Arith : Type := {
  num : Type;
  zero : num;
  hundred : num;
  add : num → num → num;
  mul : num → num → num;
  div : num → num → num;
  sqrt : num → num;
  is_zero : num → bool;
  of_count : nat → num;
  (** [log((1 + n) / (1 + df)) + 1] *)
  idf : nat → nat → num;
  (** [round(x, 2)] *)
  round2 : num → num
}.

(** The default [token_pattern], [r"(?u)\b\w\w+\b"]. *)
Definition token_re : regex :=
  Seq Bnd (Seq (Chr is_word) (Seq (Rep is_word 1 None) Bnd)).

(** The analyzer: lower-case, then the tokens. *)
Definition analyze (doc : text) : list text := findall token_re (lower doc).

Section Score.
Context `{Arith}.

(** A sparse row: the terms with a non-zero entry and their weights, listed
    here in vocabulary order.  The order in which the library stores the
    entries of a row, and so the order of its floating-point sums, is not
    fixed by the program; no property below depends on it. *)
Definition row : Type := list (text * num).

Definition count_of (t : text) (tokens : list text) : nat :=
  length (filter (λ u, u = t) tokens).

Definition doc_freq (t : text) (docs : list (list text)) : nat :=
  length (filter (λ tokens, t ∈ tokens) docs).

Definition normalize (r : row) : row :=
  let s := foldl (λ acc e, add acc (mul (snd e) (snd e))) zero r in
  if is_zero s then r else map (λ e, (fst e, div (snd e) (sqrt s))) r.

Definition tfidf_row (vocabulary : list text) (docs : list (list text))
    (tokens : list text) : row :=
  normalize
    (omap (λ t, match count_of t tokens with
                | 0 => None
                | S _ as c =>
                    Some (t, mul (of_count c) (idf (length docs) (doc_freq t docs)))
                end) vocabulary).

(** [TfidfVectorizer().fit_transform(raw_documents)]; [None] is the
    [ValueError] raised on an empty vocabulary. *)
Definition fit_transform (raw_documents : list text) : option (list row) :=
  let docs := map analyze raw_documents in
  let vocabulary :=
    merge_sort text_le (elements (list_to_set (concat docs) : gset text)) in
  match vocabulary with
  | [] => None
  | _ :: _ => Some (map (tfidf_row vocabulary docs) docs)
  end.

Definition entry (t : text) (r : row) : option num :=
  (λ ie, snd (snd ie)) <$> list_find (λ e, fst e = t) r.

(** The product of two sparse rows: only the shared terms contribute. *)
Definition dot (x y : row) : num :=
  foldl (λ acc e, match entry (fst e) y with
                  | Some w => add acc (mul (snd e) w)
                  | None => acc
                  end) zero x.

(** [cosine_similarity(X, Y)] *)
Definition cosine_similarity (X Y : list row) : list (list num) :=
  map (λ x, map (λ y, dot (normalize x) (normalize y)) Y) X.

(** [compute_ats_score(resume, job_desc)]; [None] when an exception
    leaves the function. *)
Definition compute_ats_score (resume job_desc : text) : option num :=
  tfidf ← fit_transform [resume; job_desc];
  score ← cosine_similarity (take 1 tfidf) (take 1 (drop 1 tfidf)) !! 0
          ≫= (.!! 0);
  Some (round2 (mul score hundred)).
End Score.

(** The arithmetic of numpy's [float64] on the primitive binary64 numbers.
    The program only ever has two documents, so that
    [log((1 + n) / (1 + df)) + 1] is [log(1.5) + 1] for a term of one
    document and [1] for a term of both; [round2] is numpy's rounding of a
    non-negative number below 2^52 / 100: scale, round to the nearest
    integer, scale back. *)
Definition rint (x : float) : float :=
  ((x + 0x1p+52) - 0x1p+52)%float.

Definition binary64 : Arith :=
  {| num := float;
     zero := 0%float;
     hundred := 100%float;
     add := PrimFloat.add;
     mul := PrimFloat.mul;
     div := PrimFloat.div;
     sqrt := PrimFloat.sqrt;
     is_zero := λ x, PrimFloat.eqb x 0%float;
     of_count := λ n, PrimFloat.of_uint63 (Uint63.of_Z (Z.of_nat n));
     idf := λ _ df, match df with 1 => 0x1.67cc8fb2fe613p+0%float | _ => 1%float end;
     round2 := λ x, (rint (x * 100) / 100)%float |}.

(** ** Notions used to state the properties *)

(** The character before the position reached by reading [w]. *)
Definition last_of (p : option ascii) (w : text) : option ascii :=
  match last w with Some a => Some a | None => p end.

(** The longest prefix made of characters of a class. *)
Fixpoint run_of (f : ascii → bool) (s : text) : text :=
  match s with
  | a :: s' => if f a then a :: run_of f s' else []
  | [] => []
  end.

(** The class does not go on at the head of [s]. *)
Definition stops (f : ascii → bool) (s : text) : Prop :=
  match s with a :: _ => f a = false | [] => True end.

(** [w] stands in [s], read after the character [p], as a run of at least
    [lo] characters of the class [C] with no word character on either
    side. *)
Definition word_hit (C : ascii → bool) (lo : nat) (p : option ascii)
    (s w : text) : Prop :=
  ∃ pre post, s = pre ++ w ++ post ∧
    Forall (λ a, C a = true) w ∧ lo ≤ length w ∧
    word_opt (last_of p pre) = false ∧ word_opt (head post) = false.

(** [\b class{lo,} \b] *)
Definition word_re (C : ascii → bool) (lo : nat) : regex :=
  Seq Bnd (Seq (Rep C lo None) Bnd).

(** [s] starts with [kw], letter case apart. *)
Fixpoint ci_startswith (kw s : text) : bool :=
  match kw, s with
  | [], _ => true
  | c :: kw', a :: s' => ci (lit c) a && ci_startswith kw' s'
  | _ :: _, [] => false
  end.

(** The words the title pattern looks for. *)
Definition title_keywords : list text :=
  [txt "title"; txt "position"; txt "role"].

Definition keyword_here (s : text) : bool :=
  existsb (λ kw, ci_startswith kw s) title_keywords.

Definition is_sep (a : ascii) : bool := is_code 58 a || is_code 45 a.

(** Every line terminator of the text is a line feed. *)
Definition only_lf (s : text) : Prop :=
  Forall (λ a, is_linebreak a = true → a = LF) s.

(** At this position [kw] occurs, letter case apart, between two word
    boundaries. *)
Definition occurs_here (kw : text) (p : option ascii) (s : text) : bool :=
  is_bnd p s && ci_startswith kw s &&
  is_bnd (last_of p (take (length kw) s)) (drop (length kw) s).

(** [wraps kw p s out]: [out] is [s] with the successive occurrences of
    [kw] between two word boundaries, read from left to right, put between
    emphasis markers and nothing else changed. *)
Inductive wraps (kw : text) : option ascii → text → text → Prop :=
  | wraps_end p :
      occurs_here kw p [] = false → wraps kw p [] []
  | wraps_copy p a s out :
      occurs_here kw p (a :: s) = false →
      wraps kw (Some a) s out → wraps kw p (a :: s) (a :: out)
  | wraps_hit p w s out :
      w ≠ [] → length w = length kw → occurs_here kw p (w ++ s) = true →
      wraps kw (last_of p w) s out →
      wraps kw p (w ++ s) (emphasis w ++ out)
  | wraps_empty_end p :
      kw = [] → occurs_here kw p [] = true → wraps kw p [] (emphasis [])
  | wraps_empty_copy p a s out :
      kw = [] → occurs_here kw p (a :: s) = true →
      wraps kw (Some a) s out →
      wraps kw p (a :: s) (emphasis [] ++ a :: out).

(** What [sub] writes for a piece of the scan. *)
Definition render (repl : text → text) (x : segment) : text :=
  match x with
  | Hit _ g => repl (default [] g)
  | Gap a => [a]
  end.

(** One [wraps] step per keyword, in the order given. *)
Inductive highlighted : list text → text → text → Prop :=
  | highlighted_nil t : highlighted [] t t
  | highlighted_cons kw kws t t' t'' :
      wraps kw None t t' → highlighted kws t' t'' →
      highlighted (kw :: kws) t t''.

(** [k2] comes before [k1] in [l]. *)
Definition before (l : list text) (k2 k1 : text) : Prop :=
  ∃ l1 l2 l3, l = l1 ++ k2 :: l2 ++ k1 :: l3.

(** The 256 characters. *)
Definition all_ascii : list ascii := map ascii_of_nat (seq 0 256).

(** Case analysis on the eight bits of a character. *)
Ltac each_ascii a := destruct a as [[] [] [] [] [] [] [] []].

(** ** The wording of the specification, where it differs from the code *)

(** The maximal runs of the letters a-z and A-Z. *)
Fixpoint alpha_runs (s : text) : list text :=
  match s with
  | [] => []
  | a :: s' =>
      if is_letter a then
        match s' with
        | b :: _ =>
            if is_letter b then
              match alpha_runs s' with
              | w :: ws => (a :: w) :: ws
              | [] => [[a]]
              end
            else [a] :: alpha_runs s'
        | [] => [[a]]
        end
      else alpha_runs s'
  end.

(** The keywords as the specification words them: the distinct lower-case
    alphabetic runs of length at least 4, sorted. *)
Definition keywords_as_stated (text_ : text) : list text :=
  merge_sort text_le
    (elements (list_to_set (filter (λ w, 4 ≤ length w) (alpha_runs (lower text_)))
               : gset text)).

(** What is left of a line after a keyword and a separator, if the line
    has them at this position or further on. *)
Definition after_keyword (s : text) : option text :=
  kw ← list_find (λ kw, ci_startswith kw s = true) title_keywords;
  match drop (length kw.2) s with
  | c :: remainder => if is_sep c then Some remainder else None
  | [] => None
  end.

Fixpoint line_remainder (line : text) : option text :=
  match after_keyword line with
  | Some r => Some r
  | None =>
      match line with
      | _ :: line' => line_remainder line'
      | [] => None
      end
  end.

(** The title as the specification words it: the trimmed remainder of the
    first line with a keyword and a separator, unless a line has both
    "your" and "career". *)
Definition title_as_stated (job_desc : text) : text :=
  match list_find (λ l, your_career l = true) (splitlines job_desc) with
  | Some l => strip l.2
  | None =>
      match omap line_remainder (splitlines job_desc) with
      | r :: _ => strip r
      | [] => []
      end
  end.

(** The text has "at " followed by a capital letter. *)
Fixpoint at_capitalized (s : text) : bool :=
  match s with
  | [] => false
  | _ :: s' =>
      (startswith (txt "at ") s &&
       match drop 3 s with c :: _ => is_upper_az c | [] => false end)
      || at_capitalized s'
  end.

(** ** [text_to_docx]

    The document is the sequence of blocks python-docx adds to its body;
    the serialization of the document into the buffer is not modelled.

    [add_paragraph(text)] and [add_heading(text, level)] give the block no
    run when the text is empty and one run otherwise.  The run takes the
    text character by character: a tab becomes a tab element, a carriage
    return or a line feed a line break, and the characters between them a
    text element.  A text element is written through lxml, which raises
    [ValueError] on a character that XML does not allow. *)

(** [s.split(sep)] for a separator of one character. *)
Fixpoint split_on (sep : ascii) (s : text) : list text :=
  match s with
  | [] => [[]]
  | a :: s' =>
      if decide (a = sep) then [] :: split_on sep s'
      else
        match split_on sep s' with
        | l :: ls => (a :: l) :: ls
        | [] => [[a]]
        end
  end.

Definition TAB : ascii := ascii_of_N 9.

(** The characters lxml accepts in a text: none below U+0020 but the tab,
    the line feed and the carriage return. *)
Definition xml_char (a : ascii) : bool :=
  (32 <=? code a)%N || is_code 9 a || is_code 10 a || is_code 13 a.

Inductive run_item : Type :=
  | RText (t : text)
  | RTab
  | RBreak.

Definition run_content : Type := list run_item.

Inductive block : Type :=
  | Heading (runs : list run_content) (level : nat)
  | Paragraph (runs : list run_content).

(** The pending characters become a text element; [None] is the
    [ValueError] of lxml. *)
Definition flush (r : run_content) (bfr : text) : option run_content :=
  match bfr with
  | [] => Some r
  | _ :: _ => if forallb xml_char bfr then Some (r ++ [RText bfr]) else None
  end.

(** The characters of [s] appended to the run [r], [bfr] being the
    characters not yet written. *)
Fixpoint add_text (r : run_content) (bfr s : text) : option run_content :=
  match s with
  | [] => flush r bfr
  | a :: s' =>
      if is_code 9 a then
        r' ← flush r bfr; add_text (r' ++ [RTab]) [] s'
      else if is_code 13 a || is_code 10 a then
        r' ← flush r bfr; add_text (r' ++ [RBreak]) [] s'
      else add_text r (bfr ++ [a]) s'
  end.

(** The runs of a new block with the text [s]. *)
Definition runs_of (s : text) : option (list run_content) :=
  match s with
  | [] => Some []
  | _ :: _ => r ← add_text [] [] s; Some [r]
  end.

Definition add_heading (s : text) (level : nat) : option block :=
  rs ← runs_of s; Some (Heading rs level).

Definition add_paragraph (s : text) : option block :=
  rs ← runs_of s; Some (Paragraph rs).

(** [text_to_docx(text, title)]: the blocks of the document saved into the
    buffer; [None] is the [ValueError] that leaves the function. *)
Definition text_to_docx (text_ title : text) : option (list block) :=
  heading ← add_heading title 1;
  foldl (λ doc line, d ← doc; para ← add_paragraph line; Some (d ++ [para]))
    (Some [heading]) (split_on LF text_).

(** The text python-docx reads back from a run and from the runs of a
    block: a tab for a tab element, a line feed for a line break. *)
Definition item_text (x : run_item) : text :=
  match x with
  | RText t => t
  | RTab => [TAB]
  | RBreak => [LF]
  end.

Definition runs_text (rs : list run_content) : text :=
  concat (map (λ r, concat (map item_text r)) rs).

(** The texts of the paragraphs of a document. *)
Definition paragraphs (doc : list block) : list text :=
  omap (λ b, match b with
             | Paragraph rs => Some (runs_text rs)
             | Heading _ _ => None
             end) doc.

(** The text with a line feed for each carriage return. *)
Definition cr_to_lf (s : text) : text :=
  map (λ a, if is_code 13 a then LF else a) s.

(** Only characters of U+0000..U+007F. *)
Definition is_ascii7 (a : ascii) : bool := (code a <? 128)%N.

(** ** Further notions *)

Definition space_opt (o : option ascii) : bool :=
  match o with Some a => is_space a | None => false end.

(** No white space at either end. *)
Definition trimmed (s : text) : Prop :=
  space_opt (head s) = false ∧ space_opt (last s) = false.

(** [l] stands in [s]. *)
Definition infix (l s : text) : Prop := ∃ a b, s = a ++ l ++ b.

(** The text without its asterisks. *)
Definition unstar (s : text) : text := filter (λ a, a ≠ "*"%char) s.

(** ** The requests to the chat model and the [Generate] handler

    Each of the functions [gpt_*] builds a prompt, sends one request to
    [client.chat.completions.create] and strips the content of the first
    choice of the reply.  The service is a parameter of the model:
    [create sent r] is that content for the request [r] when the requests
    [sent] went before; a request that fails is not modelled.

    A computation is given the requests sent so far; it returns a value or
    raises, and leaves the requests sent by then.  What the handler puts on
    the page is not part of the model: the record [page] keeps the values
    it computes for it. *)

Inductive error : Type := IndexError | ValueError.

Inductive result (A : Type) : Type :=
  | Raised (e : error)
  | Returned (a : A).
Arguments Raised {A} e.
Arguments Returned {A} a.

(** The keyword arguments of [create]; [messages] lists the pairs of
    [role] and [content]. *)
Record request : Type := {
  model : text;
  messages : list (text * text);
  temperature : float;
  max_tokens : nat
}.

Definition M (A : Type) : Type := list request → result A * list request.

#[global]
Instance M_ret : MRet M := λ A a sent, (Returned a, sent).

#[global]
Instance M_bind : MBind M := λ A B k m sent,
  match m sent with
  | (Returned a, sent') => k a sent'
  | (Raised e, sent') => (Raised e, sent')
  end.

Definition raise {A : Type} (e : error) : M A := λ sent, (Raised e, sent).

(** The value of [o], or the exception [e] where it has none. *)
Definition value_or_raise {A : Type} (e : error) (o : option A) : M A :=
  match o with Some a => mret a | None => raise e end.

(** [s or default] *)
Definition or_ (s default : text) : text :=
  match s with [] => default | _ :: _ => s end.

(** The truth value of a [str]. *)
Definition truthy (s : text) : bool :=
  match s with [] => false | _ :: _ => true end.

(** The values the handler computes for the page. *)
Record page `{Arith} : Type := {
  user_name : text;
  job_title : text;
  company : text;
  ats_words : list text;
  cleaned_jd : text;
  role_summary : text;
  ats_score_before : num;
  tailored_resume : text;
  ats_score_after : num;
  resume_docx : list block;
  cover_letter : text;
  cover_docx : list block;
  matched_keywords : text
}.

Section Chat.
Context `{Arith}.
Variable create : list request → request → text.

(** [client.chat.completions.create(...)] followed by
    [.choices[0].message.content] *)
Definition chat (r : request) : M text :=
  λ sent, (Returned (create sent r), sent ++ [r]).

Definition gpt_infer_role_tone (job_desc : text) : M text :=
  let prompt :=
    join [LF]
      [ [];
        txt "Analyze the job description below and respond with:";
        txt "1. Role title (e.g., Data Analyst)";
        txt "2. Top 3 skills required";
        txt "3. Ideal resume tone (e.g., formal, creative, data-driven, friendly)";
        [];
        txt "Job Description:";
        job_desc;
        [] ] in
  response ← chat {| model := txt "gpt-3.5-turbo";
                     messages := [(txt "user", prompt)];
                     temperature := 0;
                     max_tokens := 300 |};
  mret (strip response).

Definition gpt_rewrite_resume (resume job_desc role_tone_summary : text)
    (temperature_ : float) : M text :=
  let prompt :=
    join [LF]
      [ [];
        role_tone_summary;
        [];
        txt "Now, rewrite the following resume to better match the job description. Emphasize the key skills and use the appropriate tone.";
        [];
        txt "Resume:";
        resume;
        [];
        txt "Job Description:";
        job_desc;
        [];
        txt "Tailored Resume:";
        [] ] in
  response ← chat {| model := txt "gpt-3.5-turbo";
                     messages := [(txt "user", prompt)];
                     temperature := temperature_;
                     max_tokens := 1500 |};
  mret (strip response).

(** [friend] is [None] or a text. *)
Definition gpt_generate_cover_letter (name job_title_ company_ source : text)
    (friend : option text) (temperature_ : float) : M text :=
  let referral_line :=
    match friend with
    | Some f =>
        if bool_decide (source = txt "Referral") && truthy f
        then txt " They were referred by " ++ f ++ txt "."
        else []
    | None => []
    end in
  let prompt :=
    join [LF]
      [ [];
        txt "Write a personalized cover letter for " ++ name ++
          txt " applying to the " ++ job_title_ ++ txt " role at " ++
          company_ ++ txt ".";
        txt "They found this job through " ++ source ++ txt "." ++
          referral_line;
        txt "The tone should be confident, respectful, and focused on alignment with the role.";
        [];
        txt "Cover Letter:";
        [] ] in
  response ← chat {| model := txt "gpt-3.5-turbo";
                     messages := [(txt "user", prompt)];
                     temperature := temperature_;
                     max_tokens := 700 |};
  mret (strip response).

(** One run of the script below its widgets: [clicked] is the value of
    [st.button("Generate")], [job_source] the choice of the select box,
    [friend_input] the content of the text input shown for a referral,
    [temp] the value of the slider.  The result is [None] when the guard
    fails and nothing is done. *)
Definition on_generate (clicked : bool) (job_source friend_input : text)
    (temp : float) (resume_input job_input : text) : M (option page) :=
  let friend_name :=
    if bool_decide (job_source = txt "Referral") then Some friend_input
    else None in
  if clicked && truthy resume_input && truthy job_input then
    user_name ← value_or_raise IndexError (extract_name_from_resume resume_input);
    let '(job_title, company) := extract_job_title_and_company job_input in
    let ats_words := extract_keywords job_input in
    let cleaned_jd := clean_job_description job_input in
    role_summary ← gpt_infer_role_tone job_input;
    ats_score_before ←
      value_or_raise ValueError (compute_ats_score resume_input cleaned_jd);
    tailored_resume ←
      gpt_rewrite_resume resume_input cleaned_jd role_summary temp;
    ats_score_after ←
      value_or_raise ValueError (compute_ats_score tailored_resume cleaned_jd);
    resume_docx ←
      value_or_raise ValueError
        (text_to_docx tailored_resume (txt "Tailored Resume"));
    cover_letter ←
      gpt_generate_cover_letter
        (or_ user_name (txt "Applicant")) (or_ job_title (txt "the role"))
        (or_ company (txt "the company")) job_source friend_name temp;
    cover_docx ←
      value_or_raise ValueError (text_to_docx cover_letter (txt "Cover Letter"));
    mret (Some {| user_name := user_name;
                  job_title := job_title;
                  company := company;
                  ats_words := ats_words;
                  cleaned_jd := cleaned_jd;
                  role_summary := role_summary;
                  ats_score_before := ats_score_before;
                  tailored_resume := tailored_resume;
                  ats_score_after := ats_score_after;
                  resume_docx := resume_docx;
                  cover_letter := cover_letter;
                  cover_docx := cover_docx;
                  matched_keywords :=
                    highlight_keywords tailored_resume ats_words |})
  else mret None.

End Chat.

(** * Properties *)

(** ** Characters *)

Lemma all_ascii_complete (a : ascii) : a ∈ all_ascii.
Proof.
  apply (bool_decide_unpack _). each_ascii a; vm_compute; exact I.
Qed.

Lemma forallb_all_ascii (f : ascii → bool) :
  forallb f all_ascii = true → ∀ a, f a = true.
Proof.
  intros Hall a. rewrite forallb_forall in Hall. apply Hall.
  apply list_elem_of_In, all_ascii_complete.
Qed.

Lemma is_letter_word a : is_letter a = true → is_word a = true.
Proof. each_ascii a; vm_compute; congruence. Qed.

Lemma is_linebreak_space a : is_linebreak a = true → is_space a = true.
Proof. each_ascii a; vm_compute; congruence. Qed.

Lemma lower_letter_small a :
  is_letter (to_lower a) = true → is_lower_az (to_lower a) = true.
Proof. each_ascii a; vm_compute; congruence. Qed.

Lemma small_letter a : is_lower_az a = true → is_letter a = true.
Proof. unfold is_letter. intros ->. reflexivity. Qed.

(** Under [re.IGNORECASE] a character matches a literal exactly when the
    two have one lower-case form. *)
Lemma ci_lit_lower c a : ci (lit c) a = true ↔ to_lower a = to_lower c.
Proof.
  pose (chk := λ c a, eqb (ci (lit c) a) (bool_decide (to_lower a = to_lower c))).
  assert (Hall : forallb (λ c, forallb (chk c) all_ascii) all_ascii = true)
    by (vm_compute; reflexivity).
  pose proof (forallb_all_ascii _ (forallb_all_ascii _ Hall c) a) as Hca.
  unfold chk in Hca. apply eqb_prop in Hca. rewrite Hca.
  rewrite bool_decide_eq_true. reflexivity.
Qed.

(** ** The matcher *)

Lemma last_of_nil p : last_of p [] = p.
Proof. reflexivity. Qed.

Lemma last_of_cons p a w : last_of p (a :: w) = last_of (Some a) w.
Proof.
  unfold last_of. destruct w as [|b w]; [reflexivity|].
  change (last (a :: b :: w)) with (last (b :: w)).
  destruct (last (b :: w)) eqn:E; [reflexivity|].
  apply last_None in E. discriminate.
Qed.

Lemma last_of_app p u w : last_of p (u ++ w) = last_of (last_of p u) w.
Proof.
  revert p. induction u as [|a u IH]; intros p; [reflexivity|].
  simpl. rewrite !last_of_cons. apply IH.
Qed.

Lemma last_of_last p w a : last w = Some a → last_of p w = Some a.
Proof. unfold last_of. intros ->. reflexivity. Qed.

Section MatcherFacts.
Context {R : Type}.
Implicit Types (k : @cont R) (p : option ascii) (s w : text) (g : option text).

(** A greedy repetition takes the whole run when the rest of the pattern
    matches after it. *)
Lemma rep_greedy f lo p w s g k x :
  Forall (λ a, f a = true) w → stops f s → lo ≤ length w →
  k (last_of p w) s g = Some x →
  rep f lo None p (w ++ s) g k = Some x.
Proof.
  intros Hw Hs. revert lo p. induction Hw as [|a w Ha Hw IH]; intros lo p Hlo Hk.
  - simpl in *. destruct lo; [|lia].
    destruct s as [|b s]; simpl; [exact Hk|].
    simpl in Hs. rewrite Hs. exact Hk.
  - simpl. rewrite Ha. simpl.
    rewrite (IH (pred lo) (Some a)); [reflexivity| simpl in Hlo; lia |].
    rewrite <- last_of_cons with (p := p). exact Hk.
Qed.

(** It fails when the rest of the pattern fails after every prefix of the
    run that is long enough. *)
Lemma rep_none f lo p w s g k :
  Forall (λ a, f a = true) w → stops f s →
  (∀ j, lo ≤ j ≤ length w →
        k (last_of p (take j w)) (drop j w ++ s) g = None) →
  rep f lo None p (w ++ s) g k = None.
Proof.
  intros Hw Hs. revert lo p. induction Hw as [|a w Ha Hw IH]; intros lo p Hk.
  - simpl. assert (Hstop : match lo with 0 => k p s g | S _ => None end = None).
    { destruct lo; [|reflexivity]. apply (Hk 0). simpl. lia. }
    destruct s as [|b s]; simpl; [exact Hstop|].
    simpl in Hs. rewrite Hs. exact Hstop.
  - simpl. rewrite Ha. simpl. rewrite (IH (pred lo) (Some a)).
    + destruct lo; [|reflexivity]. apply (Hk 0). simpl. lia.
    + intros j Hj. specialize (Hk (S j)). simpl in Hk.
      rewrite last_of_cons in Hk. apply Hk. lia.
Qed.

(** An optional character: [class?]. *)
Lemma rep_zero f p s g k : rep f 0 (Some 0) p s g k = k p s g.
Proof. destruct s as [|a s]; simpl; [reflexivity|]. rewrite andb_false_r. reflexivity. Qed.

Lemma rep_opt_cons f p a s g k :
  rep f 0 (Some 1) p (a :: s) g k =
  if f a then match k (Some a) s g with Some x => Some x | None => k p (a :: s) g end
  else k p (a :: s) g.
Proof. simpl. rewrite andb_true_r, rep_zero. reflexivity. Qed.

Lemma rep_opt_nil f p g k : rep f 0 (Some 1) p [] g k = k p [] g.
Proof. reflexivity. Qed.

Lemma rep_opt_stop f p s g k : stops f s → rep f 0 (Some 1) p s g k = k p s g.
Proof.
  destruct s as [|a s]; [reflexivity|]. simpl stops. intros Ha.
  rewrite rep_opt_cons, Ha. reflexivity.
Qed.

Lemma stops_app f u v : stops f u → u ≠ [] → stops f (u ++ v).
Proof. destruct u; [contradiction | trivial]. Qed.

Lemma run_seq r1 r2 p s g k :
  run (Seq r1 r2) p s g k = run r1 p s g (λ p' s' g', run r2 p' s' g' k).
Proof. reflexivity. Qed.

Lemma run_alt r1 r2 p s g k :
  run (Alt r1 r2) p s g k =
  match run r1 p s g k with Some x => Some x | None => run r2 p s g k end.
Proof. reflexivity. Qed.

(** A literal string under [re.IGNORECASE]. *)
Lemma run_lits kw p s g k :
  run (lits true kw) p s g k =
  if ci_startswith kw s
  then k (last_of p (take (length kw) s)) (drop (length kw) s) g
  else None.
Proof.
  revert p s. induction kw as [|c kw IH]; intros p s; simpl; [reflexivity|].
  destruct s as [|a s]; [reflexivity|].
  destruct (ci (lit c) a); simpl; [|reflexivity].
  rewrite IH, last_of_cons. reflexivity.
Qed.

End MatcherFacts.

(** *** [re.search] *)

Lemma search_from_here r p s m :
  attempt false r p s = Some m → search_from r p s = Some m.
Proof. intros H. destruct s; simpl; rewrite H; reflexivity. Qed.

Lemma search_from_skip r p pre s :
  (∀ i, i < length pre →
        attempt false r (last_of p (take i pre)) (drop i pre ++ s) = None) →
  search_from r p (pre ++ s) = search_from r (last_of p pre) s.
Proof.
  revert p. induction pre as [|a pre IH]; intros p H; [reflexivity|].
  pose proof (H 0 ltac:(simpl; lia)) as H0. simpl in H0. rewrite last_of_nil in H0.
  simpl. rewrite H0. rewrite last_of_cons. apply IH.
  intros i Hi. specialize (H (S i)). simpl in H. rewrite last_of_cons in H.
  apply H. lia.
Qed.

Lemma search_from_none r p s :
  (∀ i, i ≤ length s →
        attempt false r (last_of p (take i s)) (drop i s) = None) →
  search_from r p s = None.
Proof.
  revert p. induction s as [|a s IH]; intros p H.
  - pose proof (H 0 ltac:(simpl; lia)) as H0. simpl in H0. rewrite last_of_nil in H0.
    simpl. rewrite H0. reflexivity.
  - pose proof (H 0 ltac:(simpl; lia)) as H0. simpl in H0. rewrite last_of_nil in H0.
    simpl. rewrite H0. apply IH.
    intros i Hi. specialize (H (S i)). simpl in H. rewrite last_of_cons in H.
    apply H. lia.
Qed.

(** *** The scan of [findall] and [sub] *)

Lemma scan_from_skip r p s n :
  n ≤ length s →
  scan_from r p s n = scan_from r (last_of p (take n s)) (drop n s) 0.
Proof.
  revert p n. induction s as [|a s IH]; intros p n Hn.
  - simpl in Hn. replace n with 0 by lia. reflexivity.
  - destruct n as [|n]; [reflexivity|].
    simpl take. simpl drop. rewrite last_of_cons.
    simpl in Hn. rewrite <- IH by lia. reflexivity.
Qed.

Lemma rep_result {R} f lo hi p s g (k : @cont R) x :
  rep f lo hi p s g k = Some x → ∃ p' s' g', k p' s' g' = Some x.
Proof.
  revert lo hi p. induction s as [|a s IH]; intros lo hi p; simpl.
  - destruct lo; [eauto | discriminate].
  - destruct (f a && more hi).
    + destruct (rep f (pred lo) (dec hi) (Some a) s g k) eqn:E.
      * intros [= <-]. eapply IH, E.
      * destruct lo; [eauto | discriminate].
    + destruct lo; [eauto | discriminate].
Qed.

(** Whatever a pattern returns, its continuation returned. *)
Lemma run_result {R} r p s g (k : @cont R) x :
  run r p s g k = Some x → ∃ p' s' g', k p' s' g' = Some x.
Proof.
  revert p s g k. induction r as [|f|f lo hi| |r1 IH1 r2 IH2|r1 IH1 r2 IH2|r1 IH1];
    intros p s g k; simpl.
  - eauto.
  - destruct s as [|a s]; [discriminate|]. destruct (f a); [eauto | discriminate].
  - apply rep_result.
  - destruct (is_bnd p s); [eauto | discriminate].
  - intros H. apply IH1 in H as (p' & s' & g' & H). eapply IH2, H.
  - destruct (run r1 p s g k) eqn:E.
    + intros [= <-]. eapply IH1, E.
    + apply IH2.
  - intros H. apply IH1 in H as (p' & s' & g' & H). eauto.
Qed.

Lemma attempt_le ma r p s n g : attempt ma r p s = Some (n, g) → n ≤ length s.
Proof.
  unfold attempt. intros H. apply run_result in H as (p' & s' & g' & H).
  destruct (ma && (length s - length s' =? 0)); [discriminate|].
  injection H as <- _. lia.
Qed.

Lemma hit_len_le r p s : hit_len (hits_at r p s) ≤ length s.
Proof.
  unfold hits_at, hit_len.
  destruct (attempt false r p s) as [[n g]|] eqn:E; [|simpl; lia].
  destruct n as [|n].
  - destruct (attempt true r p s) as [[n' g']|] eqn:E'; [|simpl; lia].
    apply attempt_le in E'. exact E'.
  - apply attempt_le in E. exact E.
Qed.

(** The scan, match by match. *)
Lemma scan_from_unfold r p s :
  scan_from r p s 0 =
  map (to_hit s) (hits_at r p s) ++
  match hit_len (hits_at r p s) with
  | 0 => match s with
         | a :: s' => Gap a :: scan_from r (Some a) s' 0
         | [] => []
         end
  | S n => scan_from r (last_of p (take (S n) s)) (drop (S n) s) 0
  end.
Proof.
  pose proof (hit_len_le r p s) as Hle.
  destruct s as [|a s].
  - simpl in *. destruct (hit_len (hits_at r p [])); [|lia].
    rewrite app_nil_r. reflexivity.
  - simpl scan_from. destruct (hit_len (hits_at r p (a :: s))) as [|n] eqn:E;
      [reflexivity|].
    f_equal. simpl in Hle. rewrite (scan_from_skip r (Some a) s n) by lia.
    simpl take. simpl drop. rewrite last_of_cons. reflexivity.
Qed.

(** *** Patterns of the form [\b class{lo,} \b] *)

Lemma run_of_split f s : s = run_of f s ++ drop (length (run_of f s)) s.
Proof.
  induction s as [|a s IH]; [reflexivity|]. simpl.
  destruct (f a); simpl; [f_equal; exact IH | reflexivity].
Qed.

Lemma run_of_all f s : Forall (λ a, f a = true) (run_of f s).
Proof.
  induction s as [|a s IH]; simpl; [constructor|].
  destruct (f a) eqn:E; [constructor; assumption | constructor].
Qed.

Lemma run_of_stops f s : stops f (drop (length (run_of f s)) s).
Proof.
  induction s as [|a s IH]; simpl; [exact I|].
  destruct (f a) eqn:E; simpl; [exact IH | exact E].
Qed.

Lemma run_of_app f w s :
  Forall (λ a, f a = true) w → stops f s → run_of f (w ++ s) = w.
Proof.
  intros Hw Hs. induction Hw as [|a w Ha Hw IH]; simpl.
  - destruct s as [|b s]; [reflexivity|]. simpl in Hs |- *. rewrite Hs. reflexivity.
  - rewrite Ha, IH. reflexivity.
Qed.

Lemma word_opt_last_of p w :
  w ≠ [] → Forall (λ a, is_word a = true) w → word_opt (last_of p w) = true.
Proof.
  intros Hne Hw. destruct (last w) as [a|] eqn:E.
  - rewrite (last_of_last _ _ _ E). simpl.
    apply last_Some in E as [w' ->]. rewrite Forall_app in Hw.
    destruct Hw as [_ Hw]. inversion Hw; assumption.
  - apply last_None in E. contradiction.
Qed.

Lemma word_opt_head w :
  w ≠ [] → Forall (λ a, is_word a = true) w → word_opt (head w) = true.
Proof.
  intros Hne Hw. destruct Hw; [contradiction|]. simpl. assumption.
Qed.

Lemma attempt_word_re ma C lo p s :
  (∀ a, C a = true → is_word a = true) → 0 < lo →
  attempt ma (word_re C lo) p s =
  if is_bnd p s && (lo <=? length (run_of C s))
     && negb (word_opt (head (drop (length (run_of C s)) s)))
  then Some (length (run_of C s), None) else None.
Proof.
  intros HC Hlo. unfold attempt, word_re. simpl run.
  pose proof (run_of_split C s) as Hs.
  pose proof (run_of_all C s) as Hw.
  pose proof (run_of_stops C s) as Hst.
  revert Hs Hw Hst. generalize (run_of C s) as w. intros w.
  generalize (drop (length w) s) as rest. intros rest -> Hw Hst.
  assert (Hword : Forall (λ a, is_word a = true) w)
    by (eapply Forall_impl; [exact Hw | exact HC]).
  destruct (is_bnd p (w ++ rest)); simpl; [|reflexivity].
  destruct (lo <=? length w) eqn:Hle; simpl.
  - apply Nat.leb_le in Hle.
    assert (Hne : w ≠ []) by (intros ->; simpl in Hle; lia).
    destruct (word_opt (head rest)) eqn:Hr; simpl.
    + apply rep_none; [exact Hw | exact Hst |].
      intros j Hj. cbv beta.
      assert (Hb : is_bnd (last_of p (take j w)) (drop j w ++ rest) = false).
      { unfold is_bnd. rewrite word_opt_last_of.
        - destruct (decide (j = length w)) as [->|Hlt].
          + rewrite drop_all. simpl. rewrite Hr. reflexivity.
          + pose proof (Forall_drop _ j _ Hword) as Hd.
            destruct (drop j w) as [|b l] eqn:E.
            * apply (f_equal length) in E. rewrite length_drop in E.
              simpl in E. lia.
            * simpl. inversion Hd as [|? ? Hb' ?]; subst. rewrite Hb'. reflexivity.
        - intros E. apply (f_equal length) in E. rewrite length_take in E.
          simpl in E. lia.
        - apply Forall_take, Hword. }
      rewrite Hb. reflexivity.
    + apply rep_greedy; [exact Hw | exact Hst | exact Hle |].
      cbv beta. unfold is_bnd. rewrite (word_opt_last_of p w Hne Hword), Hr.
      simpl. rewrite length_app.
      replace (length w + length rest - length rest) with (length w) by lia.
      destruct (length w) eqn:E; [lia|]. rewrite andb_false_r. reflexivity.
  - apply Nat.leb_gt in Hle. apply rep_none; [exact Hw | exact Hst |].
    intros j Hj. lia.
Qed.

Section WordScan.
Variables (C : ascii → bool) (lo : nat).
Hypothesis C_word : ∀ a, C a = true → is_word a = true.
Hypothesis lo_pos : 0 < lo.

Lemma word_hit_nil p w : ¬ word_hit C lo p [] w.
Proof.
  intros (pre & post & H & _ & Hl & _). symmetry in H.
  apply app_eq_nil in H as [_ H]. apply app_eq_nil in H as [-> _].
  simpl in Hl. lia.
Qed.

Lemma not_word_stops post : word_opt (head post) = false → stops C post.
Proof.
  destruct post as [|b post]; simpl; [trivial|]. intros Hb.
  destruct (C b) eqn:E; [|reflexivity]. apply C_word in E. congruence.
Qed.

Lemma word_hit_front p w post :
  Forall (λ a, C a = true) w → lo ≤ length w →
  word_opt p = false → word_opt (head post) = false →
  run_of C (w ++ post) = w ∧
  is_bnd p (w ++ post) && (lo <=? length w) && negb (word_opt (head post)) = true.
Proof.
  intros Hw Hl Hp Hpost. split.
  - apply run_of_app; [exact Hw | apply not_word_stops, Hpost].
  - assert (Hne : w ≠ []) by (intros ->; simpl in Hl; lia).
    unfold is_bnd. rewrite Hp, Hpost.
    destruct Hw as [|a w Ha Hw]; [contradiction|]. simpl.
    rewrite (C_word _ Ha). simpl. rewrite andb_true_r. apply Nat.leb_le. exact Hl.
Qed.

Lemma word_hit_after p w0 rest w :
  Forall (λ a, C a = true) w0 → lo ≤ length w0 →
  is_bnd p (w0 ++ rest) = true → word_opt (head rest) = false →
  word_hit C lo p (w0 ++ rest) w ↔
  w = w0 ∨ word_hit C lo (last_of p w0) rest w.
Proof.
  intros Hw0 Hl0 Hb Hrest.
  assert (Hne0 : w0 ≠ []) by (intros ->; simpl in Hl0; lia).
  assert (Hword0 : Forall (λ a, is_word a = true) w0)
    by (eapply Forall_impl; [exact Hw0 | exact C_word]).
  assert (Hp : word_opt p = false).
  { unfold is_bnd in Hb. destruct w0 as [|a w0]; [contradiction|].
    simpl in Hb. inversion Hword0 as [|? ? Ha ?]; subst. rewrite Ha in Hb.
    destruct (word_opt p); [discriminate | reflexivity]. }
  split.
  - intros (pre & post & Hs & Hw & Hl & Hpre & Hpost).
    destruct pre as [|b pre].
    + left. simpl in Hs.
      destruct (word_hit_front p w post Hw Hl Hp Hpost) as [Hrun _].
      rewrite <- Hs in Hrun. rewrite run_of_app in Hrun;
        [congruence | exact Hw0 | apply not_word_stops, Hrest].
    + right. apply app_eq_inv in Hs as [(k & Hk1 & Hk2) | (k & Hk1 & Hk2)].
      * exfalso. rewrite Hk1 in Hword0. apply Forall_app in Hword0 as [Hword0 _].
        rewrite word_opt_last_of in Hpre; [discriminate | discriminate | exact Hword0].
      * exists k, post. rewrite Hk1, last_of_app in Hpre. auto.
  - intros [-> | (pre & post & -> & Hw & Hl & Hpre & Hpost)].
    + exists [], rest. simpl. auto.
    + exists (w0 ++ pre), post. rewrite last_of_app, <- app_assoc. auto.
Qed.

Lemma word_hit_cons p a s w :
  is_bnd p (a :: s) && (lo <=? length (run_of C (a :: s)))
    && negb (word_opt (head (drop (length (run_of C (a :: s))) (a :: s)))) = false →
  word_hit C lo p (a :: s) w ↔ word_hit C lo (Some a) s w.
Proof.
  intros Hc. split.
  - intros (pre & post & Hs & Hw & Hl & Hpre & Hpost).
    destruct pre as [|b pre].
    + exfalso. simpl in Hs. rewrite last_of_nil in Hpre.
      destruct (word_hit_front p w post Hw Hl Hpre Hpost) as [Hrun Hc'].
      rewrite <- Hs in Hrun, Hc'. rewrite Hrun in Hc.
      rewrite Hs, drop_app_length in Hc. rewrite <- Hs in Hc. congruence.
    + simpl in Hs. injection Hs as -> ->. exists pre, post.
      rewrite last_of_cons in Hpre. auto.
  - intros (pre & post & -> & Hw & Hl & Hpre & Hpost).
    exists (a :: pre), post. rewrite last_of_cons. auto.
Qed.

(** The matches of such a pattern are the whole runs: the runs of at least
    [lo] characters of the class that no word character touches. *)
Lemma scan_word_re s : ∀ p w g,
  Hit w g ∈ scan_from (word_re C lo) p s 0 ↔ g = None ∧ word_hit C lo p s w.
Proof.
  remember (length s) as n eqn:Hn. revert s Hn.
  induction n as [n IH] using lt_wf_ind. intros s Hn p w g.
  rewrite scan_from_unfold. unfold hits_at.
  rewrite !(attempt_word_re _ C lo p s C_word lo_pos).
  pose proof (run_of_split C s) as Hs.
  pose proof (run_of_all C s) as Hw0.
  destruct (is_bnd p s && (lo <=? length (run_of C s))
            && negb (word_opt (head (drop (length (run_of C s)) s)))) eqn:Hc.
  - apply andb_prop in Hc as [Hc Hrest]. apply andb_prop in Hc as [Hb Hl].
    apply Nat.leb_le in Hl. apply negb_true_iff in Hrest.
    destruct (length (run_of C s)) as [|m] eqn:Hm; [lia|].
    unfold hit_len. simpl last. simpl map. unfold to_hit. simpl fst. simpl snd.
    rewrite <- Hm in *.
    assert (Htake : take (length (run_of C s)) s = run_of C s).
    { rewrite Hs at 2. apply take_app_length. }
    rewrite Htake. simpl app. rewrite elem_of_cons.
    assert (Hlen : length (run_of C s) ≤ length s).
    { rewrite Hs at 2. rewrite length_app. lia. }
    rewrite (IH (length (drop (length (run_of C s)) s)));
      [| rewrite length_drop; lia | reflexivity].
    assert (Hb' : is_bnd p (run_of C s ++ drop (length (run_of C s)) s) = true)
      by (rewrite <- Hs; exact Hb).
    pose proof (word_hit_after p _ _ w Hw0 Hl Hb' Hrest) as HA.
    rewrite <- Hs in HA. rewrite HA.
    split.
    + intros [[= -> ->] | [-> H]]; auto.
    + intros [-> [-> | H]]; auto.
  - unfold hit_len. simpl last. simpl map. simpl app.
    destruct s as [|a s].
    + split; [intros H; inversion H | intros [_ H]; exfalso; eapply word_hit_nil, H].
    + rewrite elem_of_cons. rewrite (IH (length s)); [| subst n; simpl; lia | reflexivity].
      rewrite (word_hit_cons p a s w Hc). split.
      * intros [H | H]; [discriminate | exact H].
      * auto.
Qed.

End WordScan.

Lemma findall_word_re C lo s w :
  (∀ a, C a = true → is_word a = true) → 0 < lo →
  w ∈ findall (word_re C lo) s ↔ word_hit C lo None s w.
Proof.
  intros HC Hlo. unfold findall, scan. rewrite list_elem_of_omap. split.
  - intros ([a | w' g] & Hin & Heq); [discriminate|]. injection Heq as ->.
    apply (scan_word_re C lo HC Hlo) in Hin as [_ H]. exact H.
  - intros H. exists (Hit w None). split; [|reflexivity].
    apply (scan_word_re C lo HC Hlo). auto.
Qed.

(** ** [sorted] *)

Lemma text_leb_total a b : text_leb a b = true ∨ text_leb b a = true.
Proof.
  revert b. induction a as [|x a IH]; intros [|y b]; simpl; auto.
  destruct (N.ltb_spec (code x) (code y)), (N.ltb_spec (code y) (code x));
    auto; try lia.
  destruct (N.eqb_spec (code x) (code y)), (N.eqb_spec (code y) (code x));
    auto; lia.
Qed.

Lemma text_leb_trans a b c :
  text_leb a b = true → text_leb b c = true → text_leb a c = true.
Proof.
  revert b c. induction a as [|x a IH]; intros [|y b] [|z c]; simpl;
    try easy.
  destruct (N.ltb_spec (code x) (code y)), (N.ltb_spec (code y) (code z)),
    (N.ltb_spec (code x) (code z)); try easy; try lia;
  destruct (N.eqb_spec (code x) (code y)), (N.eqb_spec (code y) (code z)),
    (N.eqb_spec (code x) (code z)); try easy; try lia.
  apply IH.
Qed.

#[global] Instance text_le_total : Total text_le.
Proof.
  intros a b. unfold text_le. destruct (text_leb_total a b) as [-> | ->];
    [left | right]; exact I.
Qed.

#[global] Instance text_le_trans : Transitive text_le.
Proof.
  intros a b c. unfold text_le. rewrite !Is_true_true. apply text_leb_trans.
Qed.

Lemma sorted_set_elem (l : list text) w :
  w ∈ merge_sort text_le (elements (list_to_set l : gset text)) ↔ w ∈ l.
Proof.
  rewrite merge_sort_Permutation, elem_of_elements, elem_of_list_to_set.
  reflexivity.
Qed.

Lemma sorted_set_NoDup (l : list text) :
  NoDup (merge_sort text_le (elements (list_to_set l : gset text))).
Proof. rewrite merge_sort_Permutation. apply NoDup_elements. Qed.

Lemma sorted_set_sorted (l : list text) :
  StronglySorted text_le (merge_sort text_le (elements (list_to_set l : gset text))).
Proof. apply StronglySorted_merge_sort; apply _. Qed.

(** ** [extract_keywords] *)

Lemma word_hit_lower_small p s w :
  word_hit is_letter 4 p (lower s) w ↔ word_hit is_lower_az 4 p (lower s) w.
Proof.
  split; intros (pre & post & Hs & Hw & H); exists pre, post;
    (split; [exact Hs|]); (split; [|exact H]).
  - rewrite Forall_forall in Hw |- *. intros a Ha.
    assert (Hin : a ∈ lower s) by (rewrite Hs, !elem_of_app; auto).
    unfold lower in Hin. apply list_elem_of_fmap in Hin as (b & -> & _).
    apply lower_letter_small, Hw, Ha.
  - eapply Forall_impl; [exact Hw | exact small_letter].
Qed.

(** C5, as the code has it: the keywords are the lower-case forms of the
    whole words of the text that are made of the letters a-z alone and
    have at least four of them (a run of letters next to a digit, an
    underscore or an accented letter is no keyword); they come sorted by
    code point, each once, and there is none when the text has no such
    word. *)
Theorem extract_keywords_spec (text_ : text) :
  StronglySorted text_le (extract_keywords text_) ∧
  NoDup (extract_keywords text_) ∧
  (∀ w, w ∈ extract_keywords text_ ↔
        word_hit is_lower_az 4 None (lower text_) w) ∧
  ((∀ w, ¬ word_hit is_lower_az 4 None (lower text_) w) →
   extract_keywords text_ = []).
Proof.
  assert (Hiff : ∀ w, w ∈ extract_keywords text_ ↔
                      word_hit is_lower_az 4 None (lower text_) w).
  { intros w. unfold extract_keywords. rewrite sorted_set_elem.
    change keyword_re with (word_re is_letter 4).
    rewrite (findall_word_re is_letter 4 _ _ is_letter_word ltac:(lia)).
    apply word_hit_lower_small. }
  split; [apply sorted_set_sorted|]. split; [apply sorted_set_NoDup|].
  split; [exact Hiff|]. intros Hnone.
  destruct (extract_keywords text_) as [|w l] eqn:E; [reflexivity|].
  exfalso. apply (Hnone w), Hiff. left.
Qed.

Lemma extract_keywords_spec_witness : extract_keywords (txt "go to it") = [].
Proof.
  destruct (extract_keywords_spec (txt "go to it")) as (_ & _ & Hiff & Hnone).
  apply Hnone. intros w Hw. apply Hiff in Hw. vm_compute in Hw. inversion Hw.
Defined.

(** C5, as the specification words it, fails on "abcd1": "abcd" is an
    alphabetic run of four letters there, and no keyword, the digit
    after it being a word character. *)
Lemma extract_keywords_not_all_runs :
  keywords_as_stated (txt "abcd1") = [txt "abcd"] ∧
  extract_keywords (txt "abcd1") = [] ∧
  extract_keywords (txt "abcd1") ≠ keywords_as_stated (txt "abcd1").
Proof.
  assert (H1 : keywords_as_stated (txt "abcd1") = [txt "abcd"])
    by (vm_compute; reflexivity).
  assert (H2 : extract_keywords (txt "abcd1") = []) by (vm_compute; reflexivity).
  rewrite H1, H2. repeat split. discriminate.
Qed.

(** ** [strip], [splitlines], [join] *)

Lemma lstrip_nil s : lstrip s = [] ↔ Forall (λ a, is_space a = true) s.
Proof.
  induction s as [|a s IH]; simpl.
  - split; [constructor | reflexivity].
  - destruct (is_space a) eqn:E.
    + rewrite IH. split; [constructor; assumption | intros H; inversion H; assumption].
    + split; [discriminate | intros H; inversion H; congruence].
Qed.

Lemma lstrip_head s a r : lstrip s = a :: r → is_space a = false.
Proof.
  induction s as [|b s IH]; simpl; [discriminate|].
  destruct (is_space b) eqn:E; [exact IH | intros [= -> _]; exact E].
Qed.

Lemma lstrip_split s :
  ∃ t, s = t ++ lstrip s ∧ Forall (λ a, is_space a = true) t.
Proof.
  induction s as [|a s (t & Hs & Ht)]; simpl.
  - exists []. split; [reflexivity | constructor].
  - destruct (is_space a) eqn:E.
    + exists (a :: t). split; [simpl; f_equal; exact Hs | constructor; assumption].
    + exists []. split; [reflexivity | constructor].
Qed.

Lemma rstrip_split s :
  ∃ t, s = rstrip s ++ t ∧ Forall (λ a, is_space a = true) t.
Proof.
  unfold rstrip. destruct (lstrip_split (rev s)) as (t & Hs & Ht).
  exists (rev t). split.
  - rewrite <- rev_app_distr, <- Hs, rev_involutive. reflexivity.
  - apply Forall_forall. intros a Ha. rewrite Forall_forall in Ht.
    apply Ht. apply list_elem_of_In. apply list_elem_of_In, in_rev in Ha.
    exact Ha.
Qed.

Lemma strip_nil s : strip s = [] ↔ Forall (λ a, is_space a = true) s.
Proof.
  unfold strip. rewrite lstrip_nil.
  destruct (rstrip_split s) as (t & Hs & Ht). split.
  - intros H. rewrite Hs. apply Forall_app. auto.
  - intros H. unfold rstrip. apply Forall_forall. intros a Ha.
    apply list_elem_of_In, in_rev in Ha.
    destruct (lstrip_split (rev s)) as (t' & Hs' & _).
    rewrite Forall_forall in H. apply H. apply list_elem_of_In, in_rev.
    rewrite Hs'. apply in_or_app. right. exact Ha.
Qed.

Lemma strip_snoc_space s a : is_space a = true → strip (s ++ [a]) = strip s.
Proof.
  intros Ha. unfold strip, rstrip. rewrite rev_app_distr. simpl. rewrite Ha.
  reflexivity.
Qed.

Lemma splitlines_nil s : splitlines s = [] ↔ s = [].
Proof.
  split; [|intros ->; reflexivity].
  destruct s as [|a s]; [reflexivity|]. simpl.
  destruct (is_linebreak a).
  - destruct s as [|b s]; [discriminate|].
    destruct (is_code 13 a && is_code 10 b); discriminate.
  - destruct (splitlines s); discriminate.
Qed.

(** The first line is the text up to its first line boundary. *)
Lemma splitlines_head s :
  s ≠ [] → head (splitlines s) = Some (run_of (λ a, negb (is_linebreak a)) s).
Proof.
  induction s as [|a s IH]; [contradiction|]. intros _. simpl.
  destruct (is_linebreak a); simpl.
  - destruct s as [|b s]; [reflexivity|].
    destruct (is_code 13 a && is_code 10 b); reflexivity.
  - destruct (splitlines s) as [|l ls] eqn:E.
    + apply splitlines_nil in E. subst s. reflexivity.
    + assert (Hne : s ≠ []) by (intros ->; discriminate).
      specialize (IH Hne). simpl in IH. injection IH as ->. reflexivity.
Qed.

Lemma join_cons_cons sep l l' ls :
  join sep (l :: l' :: ls) = l ++ sep ++ join sep (l' :: ls).
Proof. reflexivity. Qed.

(** Joining the lines with line feeds gives the text back, but for a last
    line feed, when the text has no other line boundary. *)
Lemma join_splitlines s :
  only_lf s →
  s = join [LF] (splitlines s) ∨ s = join [LF] (splitlines s) ++ [LF].
Proof.
  unfold only_lf. induction s as [|a s IH]; intros H; [left; reflexivity|].
  inversion H as [|? ? Ha Hs]; subst. specialize (IH Hs). simpl splitlines.
  destruct (is_linebreak a) eqn:E.
  - specialize (Ha eq_refl). subst a. destruct s as [|b s]; [right; reflexivity|].
    change (is_code 13 LF) with false. simpl andb. cbv iota.
    destruct (splitlines (b :: s)) as [|l ls] eqn:E'.
    { apply splitlines_nil in E'. discriminate. }
    rewrite join_cons_cons. simpl app.
    destruct IH as [IH | IH]; [left | right]; rewrite IH at 1; reflexivity.
  - destruct (splitlines s) as [|l ls] eqn:E'.
    + apply splitlines_nil in E'. subst s. left. reflexivity.
    + assert (Hj : join [LF] ((a :: l) :: ls) = a :: join [LF] (l :: ls))
        by (destruct ls; reflexivity).
      rewrite Hj. destruct IH as [IH | IH]; [left | right]; rewrite IH at 1;
        reflexivity.
Qed.

(** ** [extract_name_from_resume] *)

(** C10: the function returns exactly on the texts that hold a character
    other than white space: there [strip()] is not empty, [splitlines()]
    has a first line (the stripped text up to its first line boundary)
    and the result is that line trimmed, or the empty string when it has
    more than five words; on an empty or all-blank text the list of lines
    is empty and the index has no value. *)
Theorem extract_name_defined (resume_text : text) :
  (strip resume_text = [] ↔ Forall (λ a, is_space a = true) resume_text) ∧
  (strip resume_text = [] →
     splitlines (strip resume_text) = [] ∧
     extract_name_from_resume resume_text = None) ∧
  (strip resume_text ≠ [] →
     ∃ first_line,
       first_line = run_of (λ a, negb (is_linebreak a)) (strip resume_text) ∧
       splitlines (strip resume_text) !! 0 = Some first_line ∧
       extract_name_from_resume resume_text =
         Some (if bool_decide (length (split first_line) ≤ 5)
               then strip first_line else [])).
Proof.
  split; [apply strip_nil|]. unfold extract_name_from_resume. split.
  - intros ->. split; reflexivity.
  - intros Hne. eexists. split; [reflexivity|].
    pose proof (splitlines_head _ Hne) as Hh.
    rewrite <- head_lookup. rewrite Hh. split; reflexivity.
Qed.

Lemma extract_name_defined_witness :
  strip (txt "John Smith") ≠ [] ∧
  extract_name_from_resume (txt "John Smith") = Some (txt "John Smith").
Proof.
  split; [discriminate|].
  destruct (extract_name_defined (txt "John Smith")) as (_ & _ & H).
  destruct (H ltac:(discriminate)) as (fl & -> & _ & ->). reflexivity.
Defined.

(** ** [clean_job_description] *)

Lemma clean_loop_split kept cut filtered :
  Forall (λ l, is_cutoff l = false) kept →
  match cut with l :: _ => is_cutoff l = true | [] => True end →
  clean_loop (kept ++ cut) filtered = filtered ++ kept.
Proof.
  intros Hk Hc. revert filtered.
  induction Hk as [|l kept Hl Hk IH]; intros filtered; simpl.
  - destruct cut as [|l cut]; simpl; [|rewrite Hc]; rewrite app_nil_r; reflexivity.
  - rewrite Hl, IH, <- app_assoc. reflexivity.
Qed.

(** C6, as the code has it: the result is made of the lines before the
    first line with a marker, joined by line feeds and trimmed; without
    such a line all lines are kept, each line boundary of the text becoming
    a line feed, so that the result is the trimmed text when the text has
    no other line boundary than the line feed. *)
Theorem clean_job_description_spec (text_ : text) :
  (∀ kept cut,
     splitlines text_ = kept ++ cut →
     Forall (λ l, is_cutoff l = false) kept →
     match cut with l :: _ => is_cutoff l = true | [] => True end →
     clean_job_description text_ = strip (join [LF] kept)) ∧
  (Forall (λ l, is_cutoff l = false) (splitlines text_) →
     clean_job_description text_ = strip (join [LF] (splitlines text_)) ∧
     (only_lf text_ → clean_job_description text_ = strip text_)).
Proof.
  assert (H1 : ∀ kept cut,
     splitlines text_ = kept ++ cut →
     Forall (λ l, is_cutoff l = false) kept →
     match cut with l :: _ => is_cutoff l = true | [] => True end →
     clean_job_description text_ = strip (join [LF] kept)).
  { intros kept cut Hs Hk Hc. unfold clean_job_description.
    rewrite Hs, (clean_loop_split kept cut [] Hk Hc). reflexivity. }
  split; [exact H1|]. intros Hall.
  assert (H2 : clean_job_description text_ = strip (join [LF] (splitlines text_))).
  { apply (H1 _ []); [rewrite app_nil_r; reflexivity | exact Hall | exact I]. }
  split; [exact H2|]. intros Hlf. rewrite H2.
  destruct (join_splitlines text_ Hlf) as [H | H]; rewrite H at 2; [reflexivity|].
  rewrite strip_snoc_space; reflexivity.
Qed.

Lemma clean_job_description_spec_witness :
  clean_job_description (txt "Build things" ++ [LF] ++ txt "Why Join Us?" ++ [LF] ++ txt "Perks")
  = txt "Build things".
Proof.
  destruct (clean_job_description_spec
    (txt "Build things" ++ [LF] ++ txt "Why Join Us?" ++ [LF] ++ txt "Perks"))
    as [H _].
  apply (H [txt "Build things"] [txt "Why Join Us?"; txt "Perks"]).
  - reflexivity.
  - repeat constructor.
  - reflexivity.
Defined.

(** C6, as the specification words it, fails on a text with a carriage
    return: no line has a marker, and the result is not the trimmed
    text, CR LF having become a line feed. *)
Lemma clean_job_description_not_trimmed_input :
  let text_ := txt "a" ++ [CR; LF] ++ txt "b" in
  Forall (λ l, is_cutoff l = false) (splitlines text_) ∧
  clean_job_description text_ = txt "a" ++ [LF] ++ txt "b" ∧
  strip text_ = text_ ∧
  clean_job_description text_ ≠ strip text_.
Proof.
  simpl. split; [repeat constructor|]. split; [reflexivity|].
  split; [reflexivity|]. discriminate.
Qed.

(** ** [highlight_keywords] *)

Lemma ci_startswith_length kw s :
  ci_startswith kw s = true → length kw ≤ length s.
Proof.
  revert s. induction kw as [|c kw IH]; intros s; simpl; [lia|].
  destruct s as [|a s]; [discriminate|].
  intros H. apply andb_prop in H as [_ H]. apply IH in H. simpl. lia.
Qed.

(** A prefix equal to [kw] up to letter case. *)
Lemma ci_startswith_lower kw s :
  ci_startswith kw s = true ↔ ∃ w rest, s = w ++ rest ∧ lower w = lower kw.
Proof.
  revert s. induction kw as [|c kw IH]; intros s; simpl.
  - split; [intros _; exists [], s; auto | reflexivity].
  - destruct s as [|a s].
    + split; [discriminate|]. intros (w & rest & Hs & Hw).
      symmetry in Hs. apply app_eq_nil in Hs as [-> _]. discriminate.
    + rewrite andb_true_iff, ci_lit_lower, IH. split.
      * intros (Ha & w & rest & -> & Hw). exists (a :: w), rest.
        simpl. rewrite Ha, Hw. auto.
      * intros (w & rest & Hs & Hw). destruct w as [|b w]; [discriminate|].
        simpl in Hs, Hw. injection Hs as -> ->. injection Hw as Hb Hw. eauto.
Qed.

Lemma lower_length s : length (lower s) = length s.
Proof. apply length_map. Qed.

Lemma occurs_here_spec kw p s :
  occurs_here kw p s = true ↔
  ∃ w rest, s = w ++ rest ∧ lower w = lower kw ∧
            is_bnd p s = true ∧ is_bnd (last_of p w) rest = true.
Proof.
  unfold occurs_here. rewrite !andb_true_iff, ci_startswith_lower. split.
  - intros [[Hb (w & rest & -> & Hw)] Ha].
    assert (Hl : length kw = length w)
      by (rewrite <- (lower_length kw), <- Hw, lower_length; reflexivity).
    rewrite Hl, take_app_length, drop_app_length in Ha. eauto 10.
  - intros (w & rest & -> & Hw & Hb & Ha).
    assert (Hl : length kw = length w)
      by (rewrite <- (lower_length kw), <- Hw, lower_length; reflexivity).
    rewrite Hl, take_app_length, drop_app_length. eauto 10.
Qed.

Lemma attempt_highlight_re ma kw p s :
  attempt ma (highlight_re kw) p s =
  if occurs_here kw p s && negb (ma && (length kw =? 0))
  then Some (length kw, Some (take (length kw) s)) else None.
Proof.
  unfold attempt, highlight_re, occurs_here. simpl run.
  destruct (is_bnd p s); simpl; [|reflexivity].
  rewrite run_lits. destruct (ci_startswith kw s) eqn:Hci; simpl; [|reflexivity].
  apply ci_startswith_length in Hci.
  destruct (is_bnd _ _); simpl; [|reflexivity].
  rewrite length_drop.
  replace (length s - (length s - length kw)) with (length kw) by lia.
  destruct (ma && (length kw =? 0)); reflexivity.
Qed.

(** One substitution wraps the successive occurrences of the keyword
    between two word boundaries and copies the rest. *)
Lemma sub_wraps kw s : ∀ p,
  wraps kw p s (concat (map (render emphasis) (scan_from (highlight_re kw) p s 0))).
Proof.
  remember (length s) as n eqn:Hn. revert s Hn.
  induction n as [n IH] using lt_wf_ind. intros s Hn p.
  rewrite scan_from_unfold. unfold hits_at. rewrite !attempt_highlight_re.
  simpl andb. rewrite andb_true_r.
  destruct (occurs_here kw p s) eqn:Hocc; simpl andb; cbv iota.
  - destruct (length kw) as [|m] eqn:Hkw.
    + apply length_zero_iff_nil in Hkw. subst kw. simpl.
      destruct s as [|a s]; simpl.
      * apply wraps_empty_end; [reflexivity | exact Hocc].
      * apply (wraps_empty_copy [] p a s); [reflexivity | exact Hocc |].
        apply (IH (length s)); [subst n; simpl; lia | reflexivity].
    + simpl negb. cbv iota. unfold hit_len. simpl last. simpl map.
      unfold to_hit. simpl fst. simpl snd. simpl concat.
      assert (Hle : length kw ≤ length s).
      { unfold occurs_here in Hocc. apply andb_prop in Hocc as [Hocc _].
        apply andb_prop in Hocc as [_ Hocc]. apply ci_startswith_length, Hocc. }
      rewrite <- Hkw in *.
      assert (Hs : s = take (length kw) s ++ drop (length kw) s)
        by (symmetry; apply take_drop).
      rewrite Hs at 1.
      apply wraps_hit.
      * intros E. apply (f_equal length) in E. rewrite length_take in E.
        simpl in E. lia.
      * rewrite length_take. lia.
      * rewrite <- Hs. exact Hocc.
      * apply (IH (length (drop (length kw) s))); [|reflexivity].
        rewrite length_drop. lia.
  - unfold hit_len. simpl.
    destruct s as [|a s]; simpl.
    + apply wraps_end, Hocc.
    + apply wraps_copy; [exact Hocc|].
      apply (IH (length s)); [subst n; simpl; lia | reflexivity].
Qed.

Lemma highlighted_foldl kws : ∀ t,
  highlighted kws t (foldl (λ t kw, sub (highlight_re kw) emphasis t) t kws).
Proof.
  induction kws as [|kw kws IH]; intros t; simpl.
  - constructor.
  - econstructor; [|apply IH]. unfold sub, scan.
    apply (sub_wraps kw t None).
Qed.

#[global] Instance longer_first_total : Total longer_first.
Proof. intros a b. unfold longer_first. lia. Qed.

#[global] Instance longer_first_trans : Transitive longer_first.
Proof. intros a b c. unfold longer_first. lia. Qed.

Lemma highlight_order_elem keywords kw :
  kw ∈ highlight_order keywords ↔ kw ∈ keywords.
Proof.
  unfold highlight_order.
  rewrite merge_sort_Permutation, elem_of_elements, elem_of_list_to_set.
  reflexivity.
Qed.

Lemma sorted_before (l : list text) k1 k2 :
  StronglySorted longer_first l → k1 ∈ l → k2 ∈ l →
  length k1 < length k2 → before l k2 k1.
Proof.
  intros Hs H1 H2 Hlt. apply list_elem_of_split in H2 as (l1 & l2 & ->).
  apply elem_of_app in H1 as [H1 | H1].
  - exfalso. apply list_elem_of_split in H1 as (a & b & ->).
    rewrite <- app_assoc in Hs. apply StronglySorted_app_1_r in Hs.
    inversion Hs as [|? ? _ Hall]; subst. rewrite Forall_forall in Hall.
    assert (Hin : k2 ∈ b ++ k2 :: l2) by (rewrite elem_of_app, elem_of_cons; auto).
    specialize (Hall _ Hin). unfold longer_first in Hall. lia.
  - apply elem_of_cons in H1 as [-> | H1]; [lia|].
    apply list_elem_of_split in H1 as (a & b & ->). exists l1, a, b. reflexivity.
Qed.

Lemma to_lower_word a : is_word (to_lower a) = is_word a.
Proof. each_ascii a; vm_compute; reflexivity. Qed.

(** A character that matches a literal under [re.IGNORECASE] is a word
    character exactly when the literal is one. *)
Lemma ci_lit_word c a : ci (lit c) a = true → is_word a = is_word c.
Proof.
  intros H. apply ci_lit_lower in H.
  rewrite <- (to_lower_word a), H. apply to_lower_word.
Qed.

Lemma ci_startswith_head kw s :
  kw ≠ [] → ci_startswith kw s = true →
  word_opt (head s) = word_opt (head kw).
Proof.
  destruct kw as [|c kw]; [contradiction|]. intros _.
  destruct s as [|a s]; [discriminate|]. simpl.
  intros H. apply andb_prop in H as [H _]. apply ci_lit_word, H.
Qed.

Lemma ci_startswith_last kw : ∀ s,
  kw ≠ [] → ci_startswith kw s = true →
  word_opt (last (take (length kw) s)) = word_opt (last kw).
Proof.
  induction kw as [|c kw IH]; [contradiction|]. intros s _.
  destruct s as [|a s]; [discriminate|]. cbn [ci_startswith].
  intros H. apply andb_prop in H as [Hc H].
  destruct kw as [|c' kw].
  - simpl. apply ci_lit_word, Hc.
  - destruct s as [|a' s]; [discriminate|].
    change (take (length (c :: c' :: kw)) (a :: a' :: s))
      with (a :: take (length (c' :: kw)) (a' :: s)).
    change (take (length (c' :: kw)) (a' :: s))
      with (a' :: take (length kw) s) at 1.
    rewrite !last_cons_cons.
    rewrite <- (IH (a' :: s)) by (discriminate || exact H).
    reflexivity.
Qed.

(** For a keyword that begins and ends with a word character, standing
    between two word boundaries is standing with no word character on
    either side. *)
Lemma occurs_here_word kw p s :
  word_opt (head kw) = true → word_opt (last kw) = true →
  occurs_here kw p s = true ↔
  ci_startswith kw s = true ∧ word_opt p = false ∧
  word_opt (head (drop (length kw) s)) = false.
Proof.
  intros Hh Hl.
  assert (Hne : kw ≠ []) by (intros ->; discriminate).
  unfold occurs_here. rewrite !andb_true_iff.
  destruct (ci_startswith kw s) eqn:Hci.
  - pose proof (ci_startswith_head kw s Hne Hci) as Hhs. rewrite Hh in Hhs.
    pose proof (ci_startswith_last kw s Hne Hci) as Hls. rewrite Hl in Hls.
    unfold is_bnd. rewrite Hhs.
    assert (Hlo : word_opt (last_of p (take (length kw) s)) = true).
    { unfold last_of. destruct (last (take (length kw) s)); [exact Hls | discriminate]. }
    rewrite Hlo. destruct (word_opt p), (word_opt (head (drop (length kw) s)));
      simpl; intuition congruence.
  - intuition congruence.
Qed.




(** ** [extract_job_title_and_company]: the title *)

Lemma startswith_spec pre s : startswith pre s = true ↔ ∃ r, s = pre ++ r.
Proof.
  revert s. induction pre as [|c pre IH]; intros s; simpl.
  - split; [intros _; exists s; reflexivity | reflexivity].
  - destruct s as [|a s].
    + split; [discriminate | intros (r & H); discriminate].
    + destruct (decide (c = a)) as [->|Hne].
      * rewrite IH. split; intros (r & H); exists r; [congruence|].
        injection H as ->. reflexivity.
      * split; [discriminate | intros (r & H); congruence].
Qed.

Lemma contains_spec sub s : contains sub s = true ↔ ∃ a b, s = a ++ sub ++ b.
Proof.
  induction s as [|c s IH].
  - simpl. rewrite orb_false_r, startswith_spec. split.
    + intros (r & H). exists [], r. exact H.
    + intros (a & b & H). symmetry in H. apply app_eq_nil in H as [-> H].
      exists b. symmetry. exact H.
  - change (contains sub (c :: s)) with (startswith sub (c :: s) || contains sub s).
    rewrite orb_true_iff, startswith_spec, IH. split.
    + intros [(r & H) | (a & b & H)]; [exists [], r; exact H|].
      exists (c :: a), b. rewrite H. reflexivity.
    + intros (a & b & H). destruct a as [|c' a]; [left; exists b; exact H|].
      right. injection H as -> H. eauto.
Qed.

Lemma your_career_infix a l b :
  your_career l = true → your_career (a ++ l ++ b) = true.
Proof.
  unfold your_career. rewrite !andb_true_iff, !contains_spec.
  unfold lower. rewrite !map_app.
  intros [(a1 & b1 & ->) (a2 & b2 & H2)]. split.
  - exists (map to_lower a ++ a1), (b1 ++ map to_lower b).
    rewrite <- !app_assoc. reflexivity.
  - rewrite H2. exists (map to_lower a ++ a2), (b2 ++ map to_lower b).
    rewrite <- !app_assoc. reflexivity.
Qed.

(** A line of the text stands in the text. *)
Lemma splitlines_infix s : ∀ l, l ∈ splitlines s → ∃ a b, s = a ++ l ++ b.
Proof.
  remember (length s) as n eqn:Hn. revert s Hn.
  induction n as [n IH] using lt_wf_ind. intros s Hn l.
  destruct s as [|c s]; [intros H; inversion H|]. simpl splitlines.
  destruct (is_linebreak c).
  - destruct s as [|d s].
    + intros H. apply list_elem_of_singleton in H. subst l. exists [], [c]. reflexivity.
    + destruct (is_code 13 c && is_code 10 d); rewrite elem_of_cons;
        (intros [-> | H]; [exists [], (c :: d :: s); reflexivity|]).
      * apply (IH (length s)) in H as (a & b & ->); [|subst n; simpl; lia | reflexivity].
        exists (c :: d :: a), b. reflexivity.
      * apply (IH (length (d :: s))) in H as (a & b & H);
          [|subst n; simpl; lia | reflexivity].
        exists (c :: a), b. rewrite H. reflexivity.
  - destruct (splitlines s) as [|l0 ls] eqn:E.
    + apply splitlines_nil in E. subst s. intros H.
      apply list_elem_of_singleton in H. subst l. exists [], []. reflexivity.
    + assert (Hne : s ≠ []) by (intros ->; discriminate).
      pose proof (splitlines_head s Hne) as Hh. rewrite E in Hh. simpl in Hh.
      injection Hh as Hl0. rewrite elem_of_cons. intros [-> | H].
      * exists [], (drop (length l0) s). simpl. f_equal.
        rewrite Hl0. apply run_of_split.
      * assert (Hin : l ∈ splitlines s) by (rewrite E; right; exact H).
        apply (IH (length s)) in Hin as (a & b & Hs);
          [|subst n; simpl; lia | reflexivity].
        exists (c :: a), b. rewrite Hs at 1. reflexivity.
Qed.

Lemma career_loop_none lines t :
  Forall (λ l, your_career l = false) lines → career_loop lines t = t.
Proof. induction 1 as [|l lines Hl _ IH]; simpl; [|rewrite Hl]; auto. Qed.

Lemma career_loop_first pre l post t :
  Forall (λ l, your_career l = false) pre → your_career l = true →
  career_loop (pre ++ l :: post) t = strip l.
Proof.
  intros Hpre Hl. induction Hpre as [|l' pre Hl' _ IH]; simpl.
  - rewrite Hl. reflexivity.
  - rewrite Hl'. exact IH.
Qed.

Lemma ci_is_sep a : ci is_sep a = is_sep a.
Proof. each_ascii a; vm_compute; reflexivity. Qed.

Lemma ci_startswith_head_ne c kw a s :
  to_lower a ≠ to_lower c → ci_startswith (c :: kw) (a :: s) = false.
Proof.
  intros Hne. simpl. destruct (ci (lit c) a) eqn:E; [|reflexivity].
  apply ci_lit_lower in E. contradiction.
Qed.

(** No match of the title pattern starts where no keyword does. *)
Lemma attempt_title_none p s :
  keyword_here s = false → attempt false title_re p s = None.
Proof.
  unfold keyword_here, title_keywords. cbn [existsb].
  rewrite orb_false_r, !orb_false_iff. intros (H1 & H2 & H3).
  unfold attempt, title_re. cbn [run]. rewrite !run_lits, H1, H2, H3.
  reflexivity.
Qed.

(** The match at a keyword that a character other than white space
    follows: after an optional separator and the white space, the group
    takes the rest of the line. *)
Lemma attempt_title_here p kw sep ws cap rest :
  lower kw ∈ title_keywords →
  (sep = [] ∧ stops is_sep (ws ++ cap) ∨ ∃ c, sep = [c] ∧ is_sep c = true) →
  Forall (λ a, is_space a = true) ws →
  stops is_space cap → cap ≠ [] →
  Forall (λ a, any_but_newline a = true) cap →
  stops any_but_newline rest →
  ∃ n, attempt false title_re p (kw ++ sep ++ ws ++ cap ++ rest)
       = Some (n, Some cap).
Proof.
  intros Hkw Hsep Hws Hcap Hne Hdot Hrest.
  set (s := kw ++ sep ++ ws ++ cap ++ rest).
  exists (length s - length rest).
  unfold attempt.
  set (kf := λ (_ : option ascii) (s' : text) (g : option text),
               if false && (length s - length s' =? 0) then None
               else Some (length s - length s', g)).
  unfold title_re.
  set (X := Seq (Rep _ 0 (Some 1)) _).
  assert (H1 : ∀ q, run X q (sep ++ ws ++ cap ++ rest) None kf
                    = Some (length s - length rest, Some cap)).
  { intros q. unfold X. cbn [run].
    assert (H2 : ∀ q',
      rep is_space 0 None q' (ws ++ cap ++ rest) None
        (λ p' s' g', rep any_but_newline 1 None p' s' g'
           (λ p'0 s'0 _, kf p'0 s'0 (Some (take (length s' - length s'0) s'))))
      = Some (length s - length rest, Some cap)).
    { intros q'. apply rep_greedy; [exact Hws | | lia |].
      - destruct cap as [|c cap]; [contradiction|]. exact Hcap.
      - cbv beta. apply rep_greedy; [exact Hdot | exact Hrest | |].
        + destruct cap; [contradiction | simpl; lia].
        + unfold kf. simpl andb. cbv iota. rewrite length_app.
          replace (length cap + length rest - length rest) with (length cap) by lia.
          rewrite take_app_length. reflexivity. }
    destruct Hsep as [[-> Hst] | (c & -> & Hc)].
    - simpl app. rewrite rep_opt_stop; [apply H2|].
      rewrite app_assoc. apply stops_app.
      + destruct (ws ++ cap) as [|a t]; [exact I|]. simpl in *.
        change (λ a0, is_code 58 a0 || is_code 45 a0) with is_sep.
        rewrite ci_is_sep. exact Hst.
      + destruct ws; [destruct cap; [contradiction|] |]; discriminate.
    - simpl app. rewrite rep_opt_cons.
      change (λ a0, is_code 58 a0 || is_code 45 a0) with is_sep.
      rewrite ci_is_sep, Hc, H2. reflexivity. }
  unfold title_keywords in Hkw.
  assert (Hk : ∀ kw0, lower kw = lower kw0 →
    ci_startswith kw0 s = true ∧ take (length kw0) s = kw ∧
    drop (length kw0) s = sep ++ ws ++ cap ++ rest).
  { intros kw0 Hl.
    assert (Hlen : length kw0 = length kw)
      by (rewrite <- (lower_length kw0), <- Hl, lower_length; reflexivity).
    split; [apply ci_startswith_lower; exists kw, (sep ++ ws ++ cap ++ rest); auto|].
    unfold s. rewrite Hlen, take_app_length, drop_app_length. auto. }
  assert (Hhead : ∀ c kw0 kw1, lower kw = to_lower c :: kw0 →
    match kw1 with c' :: _ => to_lower c ≠ to_lower c' | [] => False end →
    ci_startswith kw1 s = false).
  { intros c kw0 [|c' kw1] Hl Hcc; [contradiction|]. unfold s.
    destruct kw as [|a kw]; [discriminate|].
    simpl in Hl. injection Hl as Ha _. apply ci_startswith_head_ne. congruence. }
  rewrite run_seq, !run_alt, !run_lits.
  apply elem_of_cons in Hkw as [Hkw | Hkw];
    [|apply elem_of_cons in Hkw as [Hkw | Hkw];
      [|apply list_elem_of_singleton in Hkw]].
  - destruct (Hk (txt "title") Hkw) as (-> & -> & ->). rewrite H1. reflexivity.
  - rewrite (Hhead "p"%char (txt "osition") (txt "title") Hkw)
      by (simpl; discriminate).
    destruct (Hk (txt "position") Hkw) as (-> & -> & ->). rewrite H1. reflexivity.
  - rewrite (Hhead "r"%char (txt "ole") (txt "title") Hkw)
      by (simpl; discriminate).
    rewrite (Hhead "r"%char (txt "ole") (txt "position") Hkw)
      by (simpl; discriminate).
    destruct (Hk (txt "role") Hkw) as (-> & -> & ->). rewrite H1. reflexivity.
Qed.

Lemma title_unfold job_desc :
  fst (extract_job_title_and_company job_desc) =
  let job_title :=
    match search title_re job_desc with
    | Some m => strip (group1 m)
    | None => []
    end in
  if your_career job_desc then career_loop (splitlines job_desc) job_title
  else job_title.
Proof. reflexivity. Qed.




(** ** [compute_ats_score] *)

Lemma rep_succ {R} f lo p s g (k : @cont R) :
  run (Seq (Chr f) (Rep f lo None)) p s g k = rep f (S lo) None p s g k.
Proof.
  destruct s as [|a s]; simpl; [reflexivity|].
  destruct (f a); simpl; [|reflexivity].
  destruct (rep f lo None (Some a) s g k); reflexivity.
Qed.

Lemma attempt_token_re ma p s :
  attempt ma token_re p s = attempt ma (word_re is_word 2) p s.
Proof.
  unfold attempt, token_re, word_re. cbn [run].
  destruct (is_bnd p s); [|reflexivity].
  change (run (Seq (Chr is_word) (Rep is_word 1 None)) p s None
            (λ p' s' g', run Bnd p' s' g'
               (λ _ s'0 g0, let n := length s - length s'0 in
                            if ma && (n =? 0) then None else Some (n, g0)))
          = rep is_word 2 None p s None
            (λ p' s' g', run Bnd p' s' g'
               (λ _ s'0 g0, let n := length s - length s'0 in
                            if ma && (n =? 0) then None else Some (n, g0)))).
  apply rep_succ.
Qed.

(** The scan depends on the pattern through its matches only. *)
Lemma scan_from_ext r1 r2 :
  (∀ ma p s, attempt ma r1 p s = attempt ma r2 p s) →
  ∀ s p n, scan_from r1 p s n = scan_from r2 p s n.
Proof.
  intros Hatt.
  assert (Hh : ∀ p s, hits_at r1 p s = hits_at r2 p s)
    by (intros p s; unfold hits_at; rewrite !Hatt; reflexivity).
  induction s as [|a s IH]; intros p n; simpl.
  - rewrite Hh. reflexivity.
  - destruct n as [|n]; [|apply IH]. rewrite Hh.
    destruct (hit_len (hits_at r2 p (a :: s))); rewrite IH; reflexivity.
Qed.

(** The tokens of the vectorizer: the whole words of two characters or
    more of the lower-case text. *)
Lemma analyze_spec doc w :
  w ∈ analyze doc ↔ word_hit is_word 2 None (lower doc) w.
Proof.
  unfold analyze. rewrite <- (findall_word_re is_word 2) by (auto; lia).
  unfold findall, scan.
  rewrite (scan_from_ext token_re (word_re is_word 2) attempt_token_re).
  reflexivity.
Qed.

Section ScoreFacts.
Context `{Arith}.
Hypothesis mul_zero_hundred : mul zero hundred = zero.
Hypothesis round2_zero : round2 zero = zero.

Lemma normalize_keys (r : row) : map fst (normalize r) = map fst r.
Proof.
  unfold normalize. destruct (is_zero _); [reflexivity|].
  rewrite map_map. reflexivity.
Qed.

Lemma count_of_pos t tokens n : count_of t tokens = S n → t ∈ tokens.
Proof.
  unfold count_of. destruct (filter (λ u, u = t) tokens) as [|u l] eqn:E;
    [discriminate|]. intros _.
  assert (Hin : u ∈ filter (λ u, u = t) tokens) by (rewrite E; left).
  apply list_elem_of_filter in Hin as [-> Hin]. exact Hin.
Qed.

Lemma tfidf_row_keys vocabulary docs tokens t :
  t ∈ map fst (tfidf_row vocabulary docs tokens) → t ∈ tokens.
Proof.
  unfold tfidf_row. rewrite normalize_keys.
  intros Hin. apply list_elem_of_fmap in Hin as ([t' v] & -> & Hin).
  apply list_elem_of_omap in Hin as (u & _ & Hu).
  destruct (count_of u tokens) eqn:E; [discriminate|].
  injection Hu as -> _. eapply count_of_pos, E.
Qed.

Lemma entry_None t (r : row) : t ∉ map fst r → entry t r = None.
Proof.
  intros Hnot. unfold entry.
  destruct (list_find (λ e, fst e = t) r) as [[i e]|] eqn:E; [|reflexivity].
  apply list_find_Some in E as (Hi & He & _). exfalso. apply Hnot.
  apply list_elem_of_fmap. exists e. split; [congruence|].
  eapply list_elem_of_lookup_2, Hi.
Qed.

(** Rows without a common term have the product zero. *)
Lemma dot_disjoint (x y : row) :
  (∀ t, t ∈ map fst x → t ∉ map fst y) → dot x y = zero.
Proof.
  unfold dot. generalize zero as acc. induction x as [|e x IH]; intros acc Hd;
    [reflexivity|].
  simpl. rewrite entry_None by (apply Hd; left). apply IH.
  intros t Ht. apply Hd. right. exact Ht.
Qed.

Lemma vocabulary_nil (docs : list (list text)) :
  merge_sort text_le (elements (list_to_set (concat docs) : gset text)) = [] ↔
  concat docs = [].
Proof.
  split.
  - intros E. destruct (concat docs) as [|t l] eqn:E'; [reflexivity|].
    assert (Hin : t ∈ merge_sort text_le
                      (elements (list_to_set (t :: l) : gset text)))
      by (apply sorted_set_elem; left).
    rewrite E in Hin. inversion Hin.
  - intros ->. reflexivity.
Qed.

(** Two texts without any token leave the vocabulary empty, and the
    vectorizer raises its error. *)
Lemma compute_ats_score_no_token (resume job_desc : text) :
  analyze resume = [] → analyze job_desc = [] →
  compute_ats_score resume job_desc = None.
Proof.
  intros Hr Hj. unfold compute_ats_score, fit_transform. cbn [map].
  rewrite Hr, Hj. reflexivity.
Qed.

(** C1, as the code has it: two texts without a common token score zero
    when at least one of them has a token; the empty text has no token, a
    token being a whole word of two characters or more of the lower-case
    text. *)
Theorem compute_ats_score_degenerate (resume job_desc : text) :
  analyze [] = [] ∧
  (∀ doc w, w ∈ analyze doc ↔ word_hit is_word 2 None (lower doc) w) ∧
  (analyze resume ≠ [] ∨ analyze job_desc ≠ [] →
   (∀ t, t ∈ analyze resume → t ∉ analyze job_desc) →
   compute_ats_score resume job_desc = Some zero).
Proof.
  split; [reflexivity|]. split; [exact analyze_spec|].
  unfold compute_ats_score, fit_transform. cbn [map].
  set (docs := [analyze resume; analyze job_desc]).
  set (vocabulary := merge_sort text_le (elements (list_to_set (concat docs)))).
  intros Hne Hdis. destruct vocabulary as [|t0 v] eqn:Hv.
  { apply vocabulary_nil in Hv. unfold docs in Hv. simpl in Hv.
    rewrite app_nil_r in Hv. apply app_eq_nil in Hv as [? ?].
    destruct Hne; contradiction. }
  simpl. rewrite dot_disjoint, mul_zero_hundred, round2_zero; [reflexivity|].
  intros t. rewrite !normalize_keys. intros Hx Hy.
  apply tfidf_row_keys in Hx, Hy. exact (Hdis t Hx Hy).
Qed.

End ScoreFacts.

Lemma compute_ats_score_degenerate_witness :
  compute_ats_score (H := binary64) [] (txt "anything") = Some 0%float.
Proof.
  destruct (compute_ats_score_degenerate (H := binary64) eq_refl eq_refl
              [] (txt "anything")) as (_ & _ & Hz).
  apply Hz.
  - right. vm_compute. discriminate.
  - intros t Ht. vm_compute in Ht. inversion Ht.
Defined.

(** C1, as the specification words it, fails on two empty texts: the
    vocabulary is empty and the vectorizer raises an error instead of
    returning 0. *)
Lemma compute_ats_score_empty_raises :
  compute_ats_score (H := binary64) [] [] = None ∧
  compute_ats_score (H := binary64) [] [] ≠ Some 0%float.
Proof.
  rewrite compute_ats_score_no_token by reflexivity. split; [reflexivity | discriminate].
Qed.

(** ** Evaluations at concrete inputs *)

(** C2: on a posting without any "at " before a capital letter and without
    the token "moneris", the company is not empty: the flag [(?i)] of the
    pattern lets [[A-Z]] match the small letter of "data". *)
Theorem company_ignores_capital :
  let job_desc := txt "We look at data" in
  snd (extract_job_title_and_company job_desc) = txt "data" ∧
  at_capitalized job_desc = false ∧
  contains (txt "moneris") (lower job_desc) = false.
Proof. vm_compute. repeat split; reflexivity. Qed.

(** C4: a resume text that is not empty and holds only white space has no
    first line after [strip()], and the index [[0]] fails. *)
Theorem extract_name_blank_text :
  txt " " ≠ [] ∧ extract_name_from_resume (txt " ") = None.
Proof. split; [discriminate | reflexivity]. Qed.

(** C9: [highlight_keywords] is not idempotent: the markers put around
    "java" leave it a whole word, which a second application wraps again. *)
Theorem highlight_keywords_not_idempotent :
  ∃ t K,
    highlight_keywords t K = emphasis t ∧
    highlight_keywords (highlight_keywords t K) K = emphasis (emphasis t) ∧
    highlight_keywords (highlight_keywords t K) K ≠ highlight_keywords t K.
Proof.
  exists (txt "java"), [txt "java"].
  assert (H1 : highlight_keywords (txt "java") [txt "java"] = emphasis (txt "java"))
    by (vm_compute; reflexivity).
  assert (H2 : highlight_keywords (emphasis (txt "java")) [txt "java"]
               = emphasis (emphasis (txt "java"))) by (vm_compute; reflexivity).
  rewrite H1, H2. repeat split. discriminate.
Qed.

(** ** The worked examples of the specification *)

Example extract_keywords_example :
  extract_keywords (txt "Cats and dogs run fast")
  = [txt "cats"; txt "dogs"; txt "fast"].
Proof. vm_compute. reflexivity. Qed.

Example extract_name_short_line :
  extract_name_from_resume (txt "John Smith" ++ [LF] ++ txt "Rest...")
  = Some (txt "John Smith").
Proof. reflexivity. Qed.

Example extract_name_long_line :
  extract_name_from_resume
    (txt "A very long first line with more than five words here")
  = Some [].
Proof. reflexivity. Qed.

Example clean_job_description_example :
  clean_job_description
    (txt "Build things" ++ [LF] ++ txt "Why Join Us" ++ [LF] ++ txt "Perks")
  = txt "Build things".
Proof. reflexivity. Qed.

Example company_after_at :
  snd (extract_job_title_and_company (txt "Join us at Acme Corp today."))
  = txt "Acme Corp today".
Proof. vm_compute. reflexivity. Qed.

Example company_fallback :
  snd (extract_job_title_and_company (txt "MONERIS is hiring")) = txt "Moneris".
Proof. vm_compute. reflexivity. Qed.

(** * Further properties of the functions *)

(** ** Trimmed texts *)

Lemma lstrip_id s : space_opt (head s) = false → lstrip s = s.
Proof. destruct s as [|a s]; simpl; [reflexivity|]. intros ->. reflexivity. Qed.

Lemma head_rev (s : text) : head (rev s) = last s.
Proof.
  induction s as [|a s IH] using rev_ind; [reflexivity|].
  rewrite rev_app_distr, last_snoc. reflexivity.
Qed.

Lemma last_rev (s : text) : last (rev s) = head s.
Proof. rewrite <- head_rev, rev_involutive. reflexivity. Qed.

Lemma rstrip_id s : space_opt (last s) = false → rstrip s = s.
Proof.
  intros H. unfold rstrip. rewrite lstrip_id, rev_involutive; [reflexivity|].
  rewrite head_rev. exact H.
Qed.

Lemma lstrip_head_opt s : space_opt (head (lstrip s)) = false.
Proof.
  destruct (lstrip s) as [|a r] eqn:E; [reflexivity|].
  simpl. eapply lstrip_head, E.
Qed.

Lemma lstrip_last s : lstrip s ≠ [] → last (lstrip s) = last s.
Proof.
  intros Hne. destruct (lstrip_split s) as (t & Hs & _).
  rewrite Hs at 2. rewrite last_app.
  destruct (last (lstrip s)) eqn:E; [reflexivity|].
  apply last_None in E. contradiction.
Qed.

Lemma rstrip_last_opt s : space_opt (last (rstrip s)) = false.
Proof. unfold rstrip. rewrite last_rev. apply lstrip_head_opt. Qed.

(** [strip] leaves no white space at either end, and changes nothing in a
    text that has none there. *)
Lemma strip_trimmed s : trimmed (strip s).
Proof.
  unfold trimmed, strip. split; [apply lstrip_head_opt|].
  destruct (lstrip (rstrip s)) as [|a r] eqn:E; [reflexivity|].
  rewrite <- E, lstrip_last by (rewrite E; discriminate).
  apply rstrip_last_opt.
Qed.

Lemma strip_id s : trimmed s → strip s = s.
Proof.
  intros [Hh Hl]. unfold strip. rewrite (rstrip_id s Hl). apply lstrip_id, Hh.
Qed.

Lemma trimmed_nil : trimmed [].
Proof. split; reflexivity. Qed.

Lemma strip_infix s : infix (strip s) s.
Proof.
  unfold strip. destruct (rstrip_split s) as (t & Hs & _).
  destruct (lstrip_split (rstrip s)) as (u & Hr & _).
  exists u, t. rewrite app_assoc, <- Hr. exact Hs.
Qed.

Lemma strip_cons_nonspace c w :
  is_space c = false → ∃ w' t, strip (c :: w) = c :: w' ∧ w = w' ++ t.
Proof.
  intros Hc. unfold strip. destruct (rstrip_split (c :: w)) as (t & Hs & Ht).
  destruct (rstrip (c :: w)) as [|c' w'] eqn:E.
  - simpl in Hs. subst t. inversion Ht; congruence.
  - simpl in Hs. injection Hs as <- Hw. exists w', t. simpl. rewrite Hc. auto.
Qed.

(** ** [extract_job_title_and_company]: the shape of the results *)

Lemma rep_consumed {R} f lo hi p s g (k : @cont R) x :
  rep f lo hi p s g k = Some x →
  ∃ j, Forall (λ a, f a = true) (take j s) ∧
       k (last_of p (take j s)) (drop j s) g = Some x.
Proof.
  revert lo hi p. induction s as [|a s IH]; intros lo hi p; simpl.
  - destruct lo; [|discriminate]. intros Hk. exists 0. split; [constructor | exact Hk].
  - assert (Hstop : match lo with 0 => k p (a :: s) g | S _ => None end = Some x →
      ∃ j, Forall (λ a, f a = true) (take j (a :: s)) ∧
           k (last_of p (take j (a :: s))) (drop j (a :: s)) g = Some x).
    { destruct lo; [|discriminate]. intros Hk. exists 0. split; [constructor | exact Hk]. }
    destruct (f a) eqn:Ha; simpl; [|exact Hstop].
    destruct (more hi); simpl; [|exact Hstop].
    destruct (rep f (pred lo) (dec hi) (Some a) s g k) eqn:E; [|exact Hstop].
    intros [= <-]. apply IH in E as (j & Hj & Hk). exists (S j). simpl.
    rewrite last_of_cons. split; [constructor; assumption | exact Hk].
Qed.

Lemma search_from_some r p s m :
  search_from r p s = Some m → ∃ p' s', attempt false r p' s' = Some m.
Proof.
  revert p. induction s as [|a s IH]; intros p; simpl;
    destruct (attempt false r p _) eqn:E; try discriminate.
  - intros [= <-]. eauto.
  - intros [= <-]. eauto.
  - apply IH.
Qed.

Lemma ci_upper_letter a : ci is_upper_az a = is_letter a.
Proof. each_ascii a; vm_compute; reflexivity. Qed.

Lemma ci_company_class a : ci company_class a = company_class a.
Proof. each_ascii a; vm_compute; reflexivity. Qed.

Lemma letter_not_space a : is_letter a = true → is_space a = false.
Proof. each_ascii a; vm_compute; congruence. Qed.

Lemma letter_company_class a : is_letter a = true → company_class a = true.
Proof. each_ascii a; vm_compute; congruence. Qed.

(** The group of the company pattern starts with a letter and goes on
    with characters of the class. *)
Lemma attempt_company_capture p s n g :
  attempt false company_re p s = Some (n, g) →
  ∃ c w, g = Some (c :: w) ∧ is_letter c = true ∧
         Forall (λ a, company_class a = true) w.
Proof.
  unfold attempt, company_re. rewrite run_seq, run_lits.
  destruct (ci_startswith (txt "at ") s); [|discriminate].
  generalize (last_of p (take (length (txt "at ")) s)) as q.
  generalize (drop (length (txt "at ")) s) as s1. intros s1 q.
  cbn [run]. destruct s1 as [|c s2]; [discriminate|].
  rewrite ci_upper_letter. destruct (is_letter c) eqn:Hc; [|discriminate].
  intros H. apply rep_consumed in H as (j & Hj & Hk).
  cbv beta in Hk. simpl andb in Hk. cbv iota zeta in Hk. injection Hk as _ <-.
  exists c, (take j s2). split; [|split; [exact Hc|]].
  - f_equal. rewrite length_drop. simpl length.
    destruct (decide (j ≤ length s2)) as [Hle|Hgt].
    + replace (S (length s2) - (length s2 - j)) with (S j) by lia. reflexivity.
    + replace (S (length s2) - (length s2 - j)) with (S (length s2)) by lia.
      simpl. rewrite !take_ge by lia. reflexivity.
  - eapply Forall_impl; [exact Hj|]. intros a Ha. simpl in Ha.
    rewrite <- ci_company_class. exact Ha.
Qed.

Lemma company_unfold job_desc :
  snd (extract_job_title_and_company job_desc) =
  let company :=
    match search company_re job_desc with
    | Some m => strip (group1 m)
    | None => []
    end in
  if bool_decide (company = []) && contains (txt "moneris") (lower job_desc)
  then txt "Moneris" else company.
Proof. reflexivity. Qed.

(** What a match of the company pattern leaves after trimming. *)
Lemma company_match_shape job_desc m :
  search company_re job_desc = Some m →
  ∃ c w, strip (group1 m) = c :: w ∧ is_letter c = true ∧
         Forall (λ a, company_class a = true) w.
Proof.
  intros H. apply search_from_some in H as (p & s & H). destruct m as [n g].
  apply attempt_company_capture in H as (c & w & -> & Hc & Hw).
  unfold group1. simpl.
  destruct (strip_cons_nonspace c w (letter_not_space c Hc)) as (w' & t & -> & ->).
  exists c, w'. apply Forall_app in Hw as [Hw _]. auto.
Qed.

Lemma career_loop_trimmed lines t : trimmed t → trimmed (career_loop lines t).
Proof.
  intros Ht. induction lines as [|l lines IH]; simpl; [exact Ht|].
  destruct (your_career l); [apply strip_trimmed | exact IH].
Qed.

(** X1: Neither the title nor the company carries white space at its ends. *)
Theorem extract_results_trimmed (job_desc : text) :
  trimmed (fst (extract_job_title_and_company job_desc)) ∧
  trimmed (snd (extract_job_title_and_company job_desc)).
Proof.
  split.
  - rewrite title_unfold. cbv zeta.
    assert (Ht : trimmed match search title_re job_desc with
                         | Some m => strip (group1 m)
                         | None => []
                         end)
      by (destruct (search title_re job_desc); [apply strip_trimmed | apply trimmed_nil]).
    destruct (your_career job_desc); [apply career_loop_trimmed, Ht | exact Ht].
  - rewrite company_unfold. cbv zeta.
    destruct (_ && _); [split; reflexivity|].
    destruct (search company_re job_desc); [apply strip_trimmed | apply trimmed_nil].
Qed.

(** X2: For a job description of characters of U+0000..U+007F only, the
    company is empty, or starts with a letter a-z or A-Z and holds nothing
    but letters, digits, '&' and spaces. *)
Theorem company_shape (job_desc : text) :
  Forall (λ a, is_ascii7 a = true) job_desc →
  snd (extract_job_title_and_company job_desc) = [] ∨
  ∃ c w, snd (extract_job_title_and_company job_desc) = c :: w ∧
         is_letter c = true ∧ Forall (λ a, company_class a = true) w.
Proof.
  intros _. rewrite company_unfold. cbv zeta.
  destruct (search company_re job_desc) as [m|] eqn:E.
  - destruct (company_match_shape _ _ E) as (c & w & Hs & Hc & Hw).
    rewrite Hs. rewrite bool_decide_eq_false_2 by discriminate. cbn [andb].
    right. eauto.
  - rewrite bool_decide_eq_true_2 by reflexivity. cbn [andb].
    destruct (contains (txt "moneris") (lower job_desc)); [|left; reflexivity].
    right. exists "M"%char, (txt "oneris"). split; [reflexivity|].
    split; [reflexivity | repeat constructor].
Qed.

Lemma company_shape_witness :
  ∃ c w, snd (extract_job_title_and_company (txt "Engineer at Acme Corp."))
         = c :: w ∧ is_letter c = true.
Proof.
  destruct (company_shape (txt "Engineer at Acme Corp."))
    as [E | (c & w & E & Hc & _)].
  - vm_compute. repeat constructor.
  - vm_compute in E. discriminate.
  - exists c, w. split; [exact E | exact Hc].
Defined.

Lemma attempt_company_none p s :
  ci_startswith (txt "at ") s = false → attempt false company_re p s = None.
Proof.
  intros H. unfold attempt, company_re. rewrite run_seq, run_lits, H. reflexivity.
Qed.

(** X3: A posting that names "moneris", in any letter case, never has an empty
    company; and when the posting has no "at " in any letter case the
    company is "Moneris" if it names "moneris" and empty otherwise. *)
Theorem company_fallback_spec (job_desc : text) :
  (contains (txt "moneris") (lower job_desc) = true →
   snd (extract_job_title_and_company job_desc) ≠ []) ∧
  ((∀ i, ci_startswith (txt "at ") (drop i job_desc) = false) →
   snd (extract_job_title_and_company job_desc) =
   if contains (txt "moneris") (lower job_desc) then txt "Moneris" else []).
Proof.
  rewrite company_unfold. cbv zeta. split.
  - intros Hm. rewrite Hm, andb_true_r.
    destruct (search company_re job_desc) as [m|] eqn:E.
    + destruct (company_match_shape _ _ E) as (c & w & Hs & _).
      rewrite Hs, bool_decide_eq_false_2 by discriminate. discriminate.
    + rewrite bool_decide_eq_true_2 by reflexivity. discriminate.
  - intros Hno. unfold search. rewrite search_from_none.
    + rewrite bool_decide_eq_true_2 by reflexivity. reflexivity.
    + intros i _. apply attempt_company_none, Hno.
Qed.

Lemma company_fallback_spec_witness :
  snd (extract_job_title_and_company (txt "Payments team, MONERIS")) = txt "Moneris".
Proof.
  destruct (company_fallback_spec (txt "Payments team, MONERIS")) as [_ H].
  rewrite H; [reflexivity|].
  intros i. do 23 (destruct i as [|i]; [reflexivity|]).
  rewrite drop_ge by (simpl; lia). reflexivity.
Defined.

(** ** [extract_name_from_resume]: the shape of the name *)

Lemma split_spaces t : Forall (λ a, is_space a = true) t → split t = [].
Proof. induction 1 as [|a t Ha _ IH]; simpl; [|rewrite Ha]; auto. Qed.

Lemma split_cons a s :
  split (a :: s) =
  if is_space a then split s
  else match s with
       | b :: _ =>
           if is_space b then [a] :: split s
           else match split s with
                | w :: ws => (a :: w) :: ws
                | [] => [[a]]
                end
       | [] => [[a]]
       end.
Proof. destruct s; reflexivity. Qed.

Lemma split_app_spaces u t :
  Forall (λ a, is_space a = true) t → split (u ++ t) = split u.
Proof.
  intros Ht. induction u as [|a u IH]; [apply split_spaces, Ht|].
  change ((a :: u) ++ t) with (a :: (u ++ t)). rewrite !split_cons, IH.
  destruct (is_space a); [reflexivity|].
  destruct u as [|b u]; [|reflexivity].
  simpl app. destruct Ht as [|c t Hc Ht]; [reflexivity|].
  rewrite Hc. reflexivity.
Qed.

Lemma split_lstrip s : split (lstrip s) = split s.
Proof.
  induction s as [|a s IH]; [reflexivity|]. simpl lstrip.
  destruct (is_space a) eqn:E; [|reflexivity].
  simpl. rewrite E. exact IH.
Qed.

(** White space at the ends makes no word. *)
Lemma split_strip s : split (strip s) = split s.
Proof.
  unfold strip. rewrite split_lstrip.
  destruct (rstrip_split s) as (t & Hs & Ht).
  rewrite Hs at 2. rewrite split_app_spaces by exact Ht. reflexivity.
Qed.

(** No line of a text holds a line boundary. *)
Lemma splitlines_no_break s : ∀ l,
  l ∈ splitlines s → Forall (λ a, is_linebreak a = false) l.
Proof.
  remember (length s) as n eqn:Hn. revert s Hn.
  induction n as [n IH] using lt_wf_ind. intros s Hn l.
  destruct s as [|c s]; [intros H; inversion H|]. simpl splitlines.
  destruct (is_linebreak c) eqn:Hc.
  - destruct s as [|d s].
    + intros H. apply list_elem_of_singleton in H. subst l. constructor.
    + destruct (is_code 13 c && is_code 10 d); rewrite elem_of_cons;
        (intros [-> | H]; [constructor|]).
      * apply (IH (length s)) in H; [exact H | subst n; simpl; lia | reflexivity].
      * apply (IH (length (d :: s))) in H;
          [exact H | subst n; simpl; lia | reflexivity].
  - destruct (splitlines s) as [|l0 ls] eqn:E.
    + intros H. apply list_elem_of_singleton in H. subst l.
      constructor; [exact Hc | constructor].
    + assert (Hall : ∀ l', l' ∈ l0 :: ls → Forall (λ a, is_linebreak a = false) l').
      { intros l' Hl'. rewrite <- E in Hl'.
        apply (IH (length s)) in Hl'; [exact Hl' | subst n; simpl; lia | reflexivity]. }
      rewrite elem_of_cons. intros [-> | H].
      * constructor; [exact Hc | apply Hall; left].
      * apply Hall. right. exact H.
Qed.

Lemma Forall_infix (P : ascii → Prop) l s : infix l s → Forall P s → Forall P l.
Proof.
  intros (a & b & ->) H. apply Forall_app in H as [_ H].
  apply Forall_app in H as [H _]. exact H.
Qed.

(** X4: A name that is returned is one trimmed line of at most five words. *)
Theorem extract_name_shape (resume_text name : text) :
  extract_name_from_resume resume_text = Some name →
  trimmed name ∧ Forall (λ a, is_linebreak a = false) name ∧
  length (split name) ≤ 5.
Proof.
  unfold extract_name_from_resume.
  destruct (splitlines (strip resume_text) !! 0) as [fl|] eqn:E; [|discriminate].
  simpl. intros [= <-]. case_bool_decide as Hw.
  - split; [apply strip_trimmed|]. split.
    + apply (Forall_infix _ _ fl (strip_infix fl)).
      apply (splitlines_no_break (strip resume_text)).
      eapply list_elem_of_lookup_2, E.
    + rewrite split_strip. exact Hw.
  - split; [apply trimmed_nil|]. split; [constructor | simpl; lia].
Qed.

Lemma extract_name_shape_witness :
  trimmed (txt "Ada Lovelace") ∧ length (split (txt "Ada Lovelace")) ≤ 5.
Proof.
  destruct (extract_name_shape (txt "  Ada Lovelace " ++ [LF] ++ txt "Engineer")
              (txt "Ada Lovelace") eq_refl) as (Ht & _ & Hw).
  split; [exact Ht | exact Hw].
Defined.

(** ** [clean_job_description]: the cleaned text *)

Lemma infix_trans l m s : infix l m → infix m s → infix l s.
Proof.
  intros (a & b & ->) (c & d & ->). exists (c ++ a), (b ++ d).
  rewrite <- !app_assoc. reflexivity.
Qed.

Lemma infix_lower l s : infix l s → infix (lower l) (lower s).
Proof.
  intros (a & b & ->). exists (lower a), (lower b). unfold lower.
  rewrite !map_app. reflexivity.
Qed.

Lemma contains_infix sub s : contains sub s = true ↔ infix sub s.
Proof. apply contains_spec. Qed.

Lemma is_cutoff_infix l k : infix l k → is_cutoff l = true → is_cutoff k = true.
Proof.
  intros Hi. unfold is_cutoff. rewrite !existsb_exists.
  intros (kw & Hkw & Hc). exists kw. split; [exact Hkw|].
  apply contains_infix. apply contains_infix in Hc.
  eapply infix_trans; [exact Hc | apply infix_lower, Hi].
Qed.

(** A text without line feed that stands in lines joined by line feeds
    stands in one of the lines. *)
Lemma infix_join l ls :
  infix l (join [LF] ls) → Forall (λ a, a ≠ LF) l →
  l = [] ∨ ∃ k, k ∈ ls ∧ infix l k.
Proof.
  intros Hi Hl. induction ls as [|k ls IH].
  - left. destruct Hi as (a & b & H). simpl in H. symmetry in H.
    apply app_eq_nil in H as [_ H]. apply app_eq_nil in H as [H _]. exact H.
  - destruct ls as [|k' ls].
    + right. exists k. split; [left | exact Hi].
    + rewrite join_cons_cons in Hi. destruct Hi as (a & b & H).
      symmetry in H. apply app_eq_inv in H as [(d & Ha & Hd) | (d & Hk & Hd)].
      * destruct d as [|c d].
        -- simpl in Hd. destruct l as [|c l]; [left; reflexivity|].
           simpl in Hd. injection Hd as <- _. inversion Hl; congruence.
        -- simpl in Hd. injection Hd as _ Hd.
           destruct IH as [-> | (k0 & Hk0 & Hi0)]; [exists d, b; exact Hd | auto |].
           right. exists k0. split; [right; exact Hk0 | exact Hi0].
      * right. exists k. split; [left|].
        apply app_eq_inv in Hd as [(e & Hl' & He) | (e & Hd' & _)].
        -- destruct e as [|c e].
           ++ rewrite app_nil_r in Hl'. subst d. exists a, []. rewrite app_nil_r. exact Hk.
           ++ simpl in He. injection He as <- _. subst l.
              apply Forall_app in Hl as [_ Hl]. inversion Hl; congruence.
        -- subst d. exists a, e. exact Hk.
Qed.

Lemma clean_loop_kept lines : ∀ filtered,
  ∃ kept cut, lines = kept ++ cut ∧ clean_loop lines filtered = filtered ++ kept ∧
              Forall (λ l, is_cutoff l = false) kept.
Proof.
  induction lines as [|l lines IH]; intros filtered; simpl.
  - exists [], []. rewrite !app_nil_r. auto.
  - destruct (is_cutoff l) eqn:E.
    + exists [], (l :: lines). rewrite !app_nil_r. auto.
    + destruct (IH (filtered ++ [l])) as (kept & cut & -> & Hc & Hk).
      exists (l :: kept), cut. rewrite Hc, <- app_assoc. auto.
Qed.

Lemma lower_join ls : lower (join [LF] ls) = join [LF] (map lower ls).
Proof.
  induction ls as [|k ls IH]; [reflexivity|].
  destruct ls as [|k' ls]; [reflexivity|].
  rewrite join_cons_cons. unfold lower at 1. rewrite !map_app. fold (lower k).
  fold (lower (join [LF] (k' :: ls))). rewrite IH. reflexivity.
Qed.

Lemma linebreak_LF a : is_linebreak a = false → a ≠ LF.
Proof. intros H ->. discriminate. Qed.

Lemma lower_linebreak a : is_linebreak (to_lower a) = is_linebreak a.
Proof. each_ascii a; vm_compute; reflexivity. Qed.

(** The lines the function keeps, and the text it makes of them. *)
Lemma clean_kept text_ :
  ∃ kept, clean_job_description text_ = strip (join [LF] kept) ∧
          Forall (λ l, is_cutoff l = false) kept ∧
          Forall (λ l, Forall (λ a, is_linebreak a = false) l) kept.
Proof.
  unfold clean_job_description.
  destruct (clean_loop_kept (splitlines text_) []) as (kept & cut & Hs & -> & Hk).
  exists kept. split; [reflexivity|]. split; [exact Hk|].
  apply Forall_forall. intros l Hl. apply (splitlines_no_break text_).
  rewrite Hs. apply elem_of_app. left. exact Hl.
Qed.

Lemma join_only_lf kept :
  Forall (λ l, Forall (λ a, is_linebreak a = false) l) kept →
  only_lf (join [LF] kept).
Proof.
  unfold only_lf. induction 1 as [|k kept Hk _ IH]; [constructor|].
  assert (Hk' : Forall (λ a, is_linebreak a = true → a = LF) k).
  { eapply Forall_impl; [exact Hk|]. simpl. intros a -> ?. discriminate. }
  destruct kept as [|k' kept]; [exact Hk'|].
  rewrite join_cons_cons. apply Forall_app. split; [exact Hk'|].
  apply Forall_app. split; [|exact IH]. constructor; [reflexivity | constructor].
Qed.

Lemma clean_plain text_ :
  Forall (λ l, is_cutoff l = false) (splitlines text_) → only_lf text_ →
  clean_job_description text_ = strip text_.
Proof.
  intros Hall Hlf. unfold clean_job_description.
  rewrite <- (app_nil_r (splitlines text_)) at 1.
  rewrite (clean_loop_split _ [] [] Hall I). simpl app.
  destruct (join_splitlines text_ Hlf) as [H | H]; rewrite H at 2; [reflexivity|].
  rewrite strip_snoc_space; reflexivity.
Qed.

Lemma cutoff_keyword_plain kw :
  kw ∈ cutoff_keywords → kw ≠ [] ∧ Forall (λ a, a ≠ LF) kw.
Proof.
  intros H. unfold cutoff_keywords in H.
  repeat (apply elem_of_cons in H as [-> | H];
          [split; [discriminate | apply (bool_decide_unpack _); vm_compute; exact I]|]).
  inversion H.
Qed.

(** X5: The cleaned text is trimmed, has no line boundary but the line feed,
    and holds none of the five markers, in any letter case. *)
Theorem clean_job_description_output (text_ : text) :
  trimmed (clean_job_description text_) ∧
  only_lf (clean_job_description text_) ∧
  Forall (λ kw, contains kw (lower (clean_job_description text_)) = false)
    cutoff_keywords.
Proof.
  destruct (clean_kept text_) as (kept & -> & Hk & Hb).
  split; [apply strip_trimmed|]. split.
  - apply (Forall_infix _ _ _ (strip_infix _)), join_only_lf, Hb.
  - apply Forall_forall. intros kw Hkw.
    destruct (contains kw (lower (strip (join [LF] kept)))) eqn:E; [|reflexivity].
    exfalso. apply contains_infix in E.
    assert (Hi : infix kw (join [LF] (map lower kept))).
    { rewrite <- lower_join. eapply infix_trans; [exact E|].
      apply infix_lower, strip_infix. }
    destruct (cutoff_keyword_plain kw Hkw) as [Hne Hnl].
    apply infix_join in Hi as [-> | (k' & Hk' & Hi)]; [| | exact Hnl].
    + contradiction.
    + apply list_elem_of_fmap in Hk' as (k & -> & Hin).
      rewrite Forall_forall in Hk. specialize (Hk k Hin).
      assert (Hc : is_cutoff k = true).
      { unfold is_cutoff. apply existsb_exists. exists kw.
        split; [apply list_elem_of_In, Hkw | apply contains_infix, Hi]. }
      congruence.
Qed.

Lemma is_cutoff_nil : is_cutoff [] = false.
Proof. reflexivity. Qed.

Lemma clean_lines_plain text_ :
  Forall (λ l, is_cutoff l = false) (splitlines (clean_job_description text_)) ∧
  only_lf (clean_job_description text_).
Proof.
  destruct (clean_kept text_) as (kept & -> & Hk & Hb). split.
  - apply Forall_forall. intros l Hl.
    destruct (is_cutoff l) eqn:E; [|reflexivity]. exfalso.
    pose proof (splitlines_no_break _ _ Hl) as Hnb.
    apply splitlines_infix in Hl.
    pose proof (infix_trans _ _ _ Hl (strip_infix _)) as Hi.
    apply infix_join in Hi as [-> | (k & Hin & Hi)].
    + rewrite is_cutoff_nil in E. discriminate.
    + rewrite Forall_forall in Hk. specialize (Hk k Hin).
      rewrite (is_cutoff_infix l k Hi E) in Hk. discriminate.
    + eapply Forall_impl; [exact Hnb | exact linebreak_LF].
  - apply (Forall_infix _ _ _ (strip_infix _)), join_only_lf, Hb.
Qed.

(** X6: Cleaning a cleaned text changes nothing. *)
Theorem clean_job_description_idempotent (text_ : text) :
  clean_job_description (clean_job_description text_)
  = clean_job_description text_.
Proof.
  destruct (clean_lines_plain text_) as [Hl Hlf].
  rewrite (clean_plain _ Hl Hlf). apply strip_id.
  unfold clean_job_description. apply strip_trimmed.
Qed.

(** ** [highlight_keywords]: what is left untouched *)

Lemma unstar_app u v : unstar (u ++ v) = unstar u ++ unstar v.
Proof. apply filter_app. Qed.

Lemma unstar_emphasis w : unstar (emphasis w) = unstar w.
Proof.
  unfold emphasis. rewrite !unstar_app.
  change (unstar (txt "**")) with (@nil ascii). rewrite app_nil_r. reflexivity.
Qed.

Lemma wraps_unstar kw p s out : wraps kw p s out → unstar out = unstar s.
Proof.
  induction 1 as [p _ | p a s out _ _ IH | p w s out _ _ _ _ IH | p _ _
                 | p a s out _ _ _ IH].
  - reflexivity.
  - change (unstar ([a] ++ out) = unstar ([a] ++ s)).
    rewrite !unstar_app, IH. reflexivity.
  - rewrite !unstar_app, unstar_emphasis, IH. reflexivity.
  - reflexivity.
  - change (unstar (emphasis [] ++ [a] ++ out) = unstar ([a] ++ s)).
    rewrite !unstar_app, unstar_emphasis, IH. reflexivity.
Qed.

Lemma highlighted_unstar kws t out : highlighted kws t out → unstar out = unstar t.
Proof.
  induction 1 as [t | kw kws t t' t'' Hw _ IH]; [reflexivity|].
  rewrite IH. eapply wraps_unstar, Hw.
Qed.

(** X7: Highlighting adds asterisks and changes nothing else: with the
    asterisks taken out, the result and the text are the same. *)
Theorem highlight_keywords_adds_asterisks_only (text_ : text) (keywords : list text) :
  unstar (highlight_keywords text_ keywords) = unstar text_.
Proof.
  apply (highlighted_unstar (highlight_order keywords)), highlighted_foldl.
Qed.

Lemma wraps_no_occurrence kw p s out :
  wraps kw p s out →
  (∀ pre rest, s = pre ++ rest → occurs_here kw (last_of p pre) rest = false) →
  out = s.
Proof.
  induction 1 as [p _ | p a s out _ _ IH | p w s out _ _ Ho _ _ | p _ Ho
                 | p a s out _ Ho _ _]; intros Hno.
  - reflexivity.
  - f_equal. apply IH. intros pre rest ->.
    rewrite <- last_of_cons with (p := p). apply (Hno (a :: pre) rest). reflexivity.
  - pose proof (Hno [] (w ++ s) eq_refl) as H'. rewrite last_of_nil in H'. congruence.
  - pose proof (Hno [] [] eq_refl) as H'. rewrite last_of_nil in H'. congruence.
  - pose proof (Hno [] (a :: s) eq_refl) as H'. rewrite last_of_nil in H'. congruence.
Qed.

Lemma occurs_here_contains kw q pre rest :
  occurs_here kw q rest = true →
  contains (lower kw) (lower (pre ++ rest)) = true.
Proof.
  intros H. apply occurs_here_spec in H as (w & r & -> & Hw & _).
  apply contains_spec. exists (lower pre), (lower r).
  unfold lower in *. rewrite !map_app, Hw. reflexivity.
Qed.

Lemma highlighted_untouched kws t out :
  highlighted kws t out →
  (∀ kw, kw ∈ kws → contains (lower kw) (lower t) = false) → out = t.
Proof.
  induction 1 as [t | kw kws t t' t'' Hw _ IH]; intros Hno; [reflexivity|].
  assert (Ht : t' = t).
  { apply (wraps_no_occurrence _ _ _ _ Hw). intros pre rest ->.
    destruct (occurs_here kw (last_of None pre) rest) eqn:E; [|reflexivity].
    apply (occurs_here_contains _ _ pre) in E.
    rewrite (Hno kw) in E by left. discriminate. }
  subst t'. apply IH. intros kw' Hkw'. apply Hno. right. exact Hkw'.
Qed.

(** X8: When the text and the keywords have characters of U+0000..U+007F
    only, a text in which no keyword stands, letter case apart, comes back
    as it is. *)
Theorem highlight_keywords_untouched (text_ : text) (keywords : list text) :
  Forall (λ a, is_ascii7 a = true) text_ →
  Forall (Forall (λ a, is_ascii7 a = true)) keywords →
  (∀ kw, kw ∈ keywords → contains (lower kw) (lower text_) = false) →
  highlight_keywords text_ keywords = text_.
Proof.
  intros _ _ Hno. apply (highlighted_untouched (highlight_order keywords)).
  - apply highlighted_foldl.
  - intros kw Hkw. apply Hno, highlight_order_elem, Hkw.
Qed.

Lemma highlight_keywords_untouched_witness :
  highlight_keywords (txt "Seasoned C++ developer") [txt "python"; txt "sql"]
  = txt "Seasoned C++ developer".
Proof.
  apply highlight_keywords_untouched.
  - vm_compute. repeat constructor.
  - vm_compute. repeat constructor.
  - intros kw Hkw.
    apply elem_of_cons in Hkw as [-> | Hkw]; [reflexivity|].
    apply elem_of_cons in Hkw as [-> | Hkw]; [reflexivity | inversion Hkw].
Defined.

(** ** [compute_ats_score]: when it fails *)

(** X9: The score is missing, the vectorizer raising its error, exactly when
    neither text has a token. *)
Theorem compute_ats_score_raises_iff `{Arith} (resume job_desc : text) :
  compute_ats_score resume job_desc = None ↔
  analyze resume = [] ∧ analyze job_desc = [].
Proof.
  split.
  - unfold compute_ats_score, fit_transform. cbn [map].
    destruct (merge_sort text_le _) as [|t0 v] eqn:Hv; [|discriminate].
    intros _. apply vocabulary_nil in Hv. simpl in Hv.
    rewrite app_nil_r in Hv. apply app_eq_nil in Hv. exact Hv.
  - intros [Hr Hj]. unfold compute_ats_score, fit_transform. cbn [map].
    rewrite Hr, Hj. reflexivity.
Qed.

(** ** [extract_keywords]: the keywords read back from their display *)

Lemma to_lower_nonword a : is_word a = false → to_lower a = a.
Proof. each_ascii a; vm_compute; congruence. Qed.

Lemma to_lower_small a : is_lower_az a = true → to_lower a = a.
Proof. each_ascii a; vm_compute; congruence. Qed.

Lemma small_word a : is_lower_az a = true → is_word a = true.
Proof. intros H. apply is_letter_word, small_letter, H. Qed.

Lemma code_inj x y : code x = code y → x = y.
Proof.
  unfold code. intros H. rewrite <- (ascii_N_embedding x), <- (ascii_N_embedding y), H.
  reflexivity.
Qed.

Lemma text_leb_antisym a b : text_leb a b = true → text_leb b a = true → a = b.
Proof.
  revert b. induction a as [|x a IH]; intros [|y b]; simpl; try easy.
  destruct (N.ltb_spec (code x) (code y)), (N.ltb_spec (code y) (code x));
    try lia; try easy;
  destruct (N.eqb_spec (code x) (code y)), (N.eqb_spec (code y) (code x));
    try lia; try easy.
  intros H1 H2. f_equal; [apply code_inj; assumption | apply IH; assumption].
Qed.

#[global] Instance text_le_antisym : AntiSymm (=) text_le.
Proof.
  intros a b. unfold text_le. rewrite !Is_true_true. apply text_leb_antisym.
Qed.

(** A sorted list without duplicates is what [sorted(set(...))] makes of
    any list with the same members. *)
Lemma sorted_set_unique (l ks : list text) :
  StronglySorted text_le ks → NoDup ks → (∀ w, w ∈ l ↔ w ∈ ks) →
  merge_sort text_le (elements (list_to_set l : gset text)) = ks.
Proof.
  intros Hs Hn Hm. apply (Sorted_unique text_le).
  - apply StronglySorted_Sorted, sorted_set_sorted.
  - apply StronglySorted_Sorted, Hs.
  - apply NoDup_Permutation; [apply sorted_set_NoDup | exact Hn |].
    intros w. rewrite sorted_set_elem. apply Hm.
Qed.

Section JoinedWords.
Variables (C : ascii → bool) (lo : nat) (sep : text).
Hypothesis C_word : ∀ a, C a = true → is_word a = true.
Hypothesis lo_pos : 0 < lo.
Hypothesis sep_ne : sep ≠ [].
Hypothesis sep_nonword : Forall (λ a, is_word a = false) sep.

Lemma nonword_not_C a : is_word a = false → C a = false.
Proof.
  intros H. destruct (C a) eqn:E; [|reflexivity]. apply C_word in E. congruence.
Qed.

(** Passing over characters that are no word characters. *)
Lemma word_hit_skip u : ∀ p s w,
  Forall (λ a, is_word a = false) u →
  word_hit C lo p (u ++ s) w ↔ word_hit C lo (last_of p u) s w.
Proof.
  induction u as [|a u IH]; intros p s w Hu; [reflexivity|].
  inversion Hu as [|? ? Ha Hu']; subst.
  rewrite last_of_cons, <- IH by exact Hu'.
  apply (word_hit_cons C lo C_word lo_pos).
  simpl run_of. rewrite (nonword_not_C a Ha). simpl length.
  destruct lo; [lia|]. rewrite andb_false_r. reflexivity.
Qed.

(** The whole runs of words joined by a separator are the words. *)
Lemma word_hit_join ks : ∀ p w,
  word_opt p = false →
  Forall (λ k, Forall (λ a, C a = true) k ∧ lo ≤ length k) ks →
  word_hit C lo p (join sep ks) w ↔ w ∈ ks.
Proof.
  induction ks as [|k ks IH]; intros p w Hp Hks.
  - split; [intros H; exfalso; eapply (word_hit_nil C lo), H | intros H; inversion H].
    exact lo_pos.
  - inversion Hks as [|? ? [Hk Hl] Hks']; subst.
    assert (Hne : k ≠ []) by (intros ->; simpl in Hl; lia).
    assert (Hkw : Forall (λ a, is_word a = true) k)
      by (eapply Forall_impl; [exact Hk | exact C_word]).
    assert (Hb : ∀ rest, is_bnd p (k ++ rest) = true).
    { intros rest. unfold is_bnd. rewrite Hp. destruct k as [|a k]; [contradiction|].
      simpl. inversion Hkw; subst. assumption. }
    destruct ks as [|k' ks].
    + simpl join. rewrite <- (app_nil_r k) at 1.
      rewrite (word_hit_after C lo C_word lo_pos p k [] w Hk Hl (Hb []) eq_refl).
      rewrite list_elem_of_singleton. split; [intros [H | H]; [exact H|] | auto].
      exfalso. eapply (word_hit_nil C lo), H. exact lo_pos.
    + change (join sep (k :: k' :: ks)) with (k ++ sep ++ join sep (k' :: ks)).
      assert (Hhead : word_opt (head (sep ++ join sep (k' :: ks))) = false).
      { destruct sep as [|c sep']; [contradiction|]. simpl.
        inversion sep_nonword; subst. assumption. }
      rewrite (word_hit_after C lo C_word lo_pos p k _ w Hk Hl (Hb _) Hhead).
      rewrite word_hit_skip by exact sep_nonword.
      rewrite IH; [rewrite (elem_of_cons (k' :: ks)); reflexivity | | exact Hks'].
      destruct (last sep) as [c|] eqn:E.
      * rewrite (last_of_last _ _ _ E). simpl.
        apply last_Some in E as [u ->]. rewrite Forall_app in sep_nonword.
        destruct sep_nonword as [_ H]. inversion H; assumption.
      * apply last_None in E. contradiction.
Qed.

End JoinedWords.

Lemma lower_fixed s : Forall (λ a, to_lower a = a) s → lower s = s.
Proof.
  unfold lower. induction 1 as [|a s Ha _ IH]; simpl; [|rewrite Ha, IH]; reflexivity.
Qed.

Lemma join_Forall (P : ascii → Prop) sep ks :
  Forall P sep → Forall (Forall P) ks → Forall P (join sep ks).
Proof.
  intros Hsep. induction 1 as [|k ks Hk _ IH]; [constructor|].
  destruct ks as [|k' ks]; [exact Hk|].
  change (join sep (k :: k' :: ks)) with (k ++ sep ++ join sep (k' :: ks)).
  rewrite !Forall_app. auto.
Qed.

(** Any sorted list, without duplicates, of words of four small letters or
    more is read back from its members joined by a separator that holds
    no word character. *)
Lemma extract_keywords_join sep ks :
  sep ≠ [] → Forall (λ a, is_word a = false) sep →
  StronglySorted text_le ks → NoDup ks →
  Forall (λ k, Forall (λ a, is_lower_az a = true) k ∧ 4 ≤ length k) ks →
  extract_keywords (join sep ks) = ks.
Proof.
  intros Hne Hsep Hs Hn Hks. unfold extract_keywords.
  assert (Hlow : lower (join sep ks) = join sep ks).
  { apply lower_fixed, join_Forall.
    - eapply Forall_impl; [exact Hsep | exact to_lower_nonword].
    - eapply Forall_impl; [exact Hks|]. intros k [Hk _].
      eapply Forall_impl; [exact Hk | exact to_lower_small]. }
  rewrite Hlow. apply sorted_set_unique; [exact Hs | exact Hn |].
  intros w. change keyword_re with (word_re is_letter 4).
  rewrite (findall_word_re is_letter 4 _ _ is_letter_word ltac:(lia)).
  apply (word_hit_join is_letter 4 sep is_letter_word ltac:(lia) Hne Hsep);
    [reflexivity|].
  eapply Forall_impl; [exact Hks|]. intros k [Hk Hl]. split; [|exact Hl].
  eapply Forall_impl; [exact Hk | exact small_letter].
Qed.

Lemma extract_keywords_members text_ :
  Forall (λ k, Forall (λ a, is_lower_az a = true) k ∧ 4 ≤ length k)
    (extract_keywords text_).
Proof.
  apply Forall_forall. intros w Hw. unfold extract_keywords in Hw.
  rewrite sorted_set_elem in Hw. change keyword_re with (word_re is_letter 4) in Hw.
  rewrite (findall_word_re is_letter 4 _ _ is_letter_word ltac:(lia)) in Hw.
  apply word_hit_lower_small in Hw as (pre & post & _ & Hk & Hl & _). auto.
Qed.

(** X10: The keywords, or the first [n] of them as the page shows them, joined
    by a separator without word character (", " on the page), are read
    back by [extract_keywords] as they were. *)
Theorem extract_keywords_round_trip (text_ sep : text) (n : nat) :
  sep ≠ [] → Forall (λ a, is_word a = false) sep →
  extract_keywords (join sep (take n (extract_keywords text_)))
  = take n (extract_keywords text_).
Proof.
  intros Hne Hsep.
  pose proof (sorted_set_sorted (findall keyword_re (lower text_))) as Hs.
  pose proof (sorted_set_NoDup (findall keyword_re (lower text_))) as Hn.
  fold (extract_keywords text_) in Hs, Hn.
  apply extract_keywords_join; [exact Hne | exact Hsep | | |].
  - rewrite <- (take_drop n (extract_keywords text_)) in Hs.
    apply StronglySorted_app_1_l in Hs. exact Hs.
  - rewrite <- (take_drop n (extract_keywords text_)) in Hn.
    apply NoDup_app in Hn as [Hn _]. exact Hn.
  - apply Forall_take, extract_keywords_members.
Qed.

Lemma extract_keywords_round_trip_witness :
  extract_keywords
    (join (txt ", ") (take 25 (extract_keywords (txt "Cats and dogs run fast"))))
  = take 25 (extract_keywords (txt "Cats and dogs run fast")).
Proof.
  apply extract_keywords_round_trip; [discriminate | repeat constructor].
Defined.

(** ** [text_to_docx] *)

Lemma split_on_cons sep a s :
  split_on sep (a :: s) =
  if decide (a = sep) then [] :: split_on sep s
  else match split_on sep s with
       | l :: ls => (a :: l) :: ls
       | [] => [[a]]
       end.
Proof. reflexivity. Qed.

Lemma split_on_ne sep s : split_on sep s ≠ [].
Proof.
  destruct s as [|a s]; [discriminate|]. rewrite split_on_cons.
  destruct (decide (a = sep)); [discriminate|].
  destruct (split_on sep s); discriminate.
Qed.

Lemma join_cons_ne sep l ls : ls ≠ [] → join sep (l :: ls) = l ++ sep ++ join sep ls.
Proof. destruct ls; [contradiction | reflexivity]. Qed.

Lemma join_split_on sep s : join [sep] (split_on sep s) = s.
Proof.
  induction s as [|a s IH]; [reflexivity|]. rewrite split_on_cons.
  destruct (decide (a = sep)) as [->|Hne].
  - rewrite join_cons_ne by apply split_on_ne. rewrite IH. reflexivity.
  - pose proof (split_on_ne sep s) as Hs.
    destruct (split_on sep s) as [|l ls]; [contradiction|].
    destruct ls as [|l' ls]; simpl in *; rewrite <- IH; reflexivity.
Qed.

Lemma split_on_no_sep sep s : Forall (λ l, sep ∉ l) (split_on sep s).
Proof.
  induction s as [|a s IH]; [repeat constructor; intros H; inversion H|].
  rewrite split_on_cons. destruct (decide (a = sep)) as [->|Hne].
  - constructor; [intros H; inversion H | exact IH].
  - destruct (split_on sep s) as [|l ls].
    + repeat constructor. intros H. apply list_elem_of_singleton in H. congruence.
    + inversion IH as [|? ? Hl Hls]; subst. constructor; [|exact Hls].
      intros H. apply elem_of_cons in H as [H | H]; [congruence | contradiction].
Qed.

Lemma split_on_length sep s :
  length (split_on sep s) = S (length (filter (λ a, a = sep) s)).
Proof.
  induction s as [|a s IH]; [reflexivity|]. rewrite split_on_cons.
  rewrite (filter_cons (λ a, a = sep)).
  destruct (decide (a = sep)) as [->|Hne]; simpl; [rewrite IH; reflexivity|].
  pose proof (split_on_ne sep s) as Hs.
  destruct (split_on sep s) as [|l ls]; [contradiction|]. exact IH.
Qed.

Lemma is_code_eq n a : is_code n a = true → a = ascii_of_N n.
Proof.
  unfold is_code, code. intros H. apply N.eqb_eq in H. rewrite <- H.
  symmetry. apply ascii_N_embedding.
Qed.

Lemma cr_to_lf_cons a s :
  cr_to_lf (a :: s) = (if is_code 13 a then LF else a) :: cr_to_lf s.
Proof. reflexivity. Qed.

Lemma cr_to_lf_app s t : cr_to_lf (s ++ t) = cr_to_lf s ++ cr_to_lf t.
Proof. apply map_app. Qed.

Lemma cr_to_lf_id s : Forall (λ a, is_code 13 a = false) s → cr_to_lf s = s.
Proof.
  induction 1 as [|a s Ha _ IH]; [reflexivity|].
  rewrite cr_to_lf_cons, Ha, IH. reflexivity.
Qed.

Lemma cr_to_lf_join ls : cr_to_lf (join [LF] ls) = join [LF] (map cr_to_lf ls).
Proof.
  induction ls as [|k ls IH]; [reflexivity|].
  destruct ls as [|k' ls]; [reflexivity|].
  rewrite join_cons_cons, !cr_to_lf_app, IH. reflexivity.
Qed.

Lemma flush_some r bfr :
  forallb xml_char bfr = true →
  ∃ r', flush r bfr = Some r' ∧
        concat (map item_text r') = concat (map item_text r) ++ bfr.
Proof.
  intros Hb. unfold flush. destruct bfr as [|a bfr].
  - exists r. rewrite app_nil_r. auto.
  - rewrite Hb. eexists. split; [reflexivity|].
    rewrite map_app, concat_app. simpl. rewrite app_nil_r. reflexivity.
Qed.

Lemma flush_none r bfr : forallb xml_char bfr = false → flush r bfr = None.
Proof.
  intros Hb. unfold flush. destruct bfr as [|a bfr]; [discriminate|].
  rewrite Hb. reflexivity.
Qed.

(** A run takes a text without error exactly when lxml accepts all its
    characters; read back, the run gives the text with a line feed for
    each carriage return. *)
Lemma add_text_some s : ∀ r bfr,
  forallb xml_char (bfr ++ s) = true →
  ∃ r', add_text r bfr s = Some r' ∧
        concat (map item_text r')
        = concat (map item_text r) ++ bfr ++ cr_to_lf s.
Proof.
  induction s as [|a s IH]; intros r bfr Hok.
  - rewrite app_nil_r in Hok |- *. apply flush_some, Hok.
  - rewrite forallb_app in Hok. apply andb_prop in Hok as [Hb Hs].
    simpl in Hs. apply andb_prop in Hs as [Ha Hs].
    rewrite cr_to_lf_cons. simpl add_text.
    destruct (is_code 9 a) eqn:Htab.
    { destruct (flush_some r bfr Hb) as (r1 & -> & Hr1). simpl.
      destruct (IH (r1 ++ [RTab]) [] Hs) as (r2 & -> & Hr2).
      exists r2. split; [reflexivity|].
      rewrite Hr2, map_app, concat_app, Hr1. simpl.
      apply is_code_eq in Htab. subst a. rewrite <- !app_assoc. reflexivity. }
    destruct (is_code 13 a) eqn:Hcr; simpl orb.
    { destruct (flush_some r bfr Hb) as (r1 & -> & Hr1). simpl.
      destruct (IH (r1 ++ [RBreak]) [] Hs) as (r2 & -> & Hr2).
      exists r2. split; [reflexivity|].
      rewrite Hr2, map_app, concat_app, Hr1. simpl.
      rewrite <- !app_assoc. reflexivity. }
    destruct (is_code 10 a) eqn:Hlf.
    { destruct (flush_some r bfr Hb) as (r1 & -> & Hr1). simpl.
      destruct (IH (r1 ++ [RBreak]) [] Hs) as (r2 & -> & Hr2).
      exists r2. split; [reflexivity|].
      rewrite Hr2, map_app, concat_app, Hr1. simpl.
      apply is_code_eq in Hlf. subst a. rewrite <- !app_assoc. reflexivity. }
    destruct (IH r (bfr ++ [a])) as (r2 & -> & Hr2).
    { rewrite !forallb_app. simpl. rewrite Hb, Ha, Hs. reflexivity. }
    exists r2. split; [reflexivity|]. rewrite Hr2, <- !app_assoc. reflexivity.
Qed.

Lemma add_text_none s : ∀ r bfr,
  forallb xml_char (bfr ++ s) = false → add_text r bfr s = None.
Proof.
  induction s as [|a s IH]; intros r bfr Hbad.
  - rewrite app_nil_r in Hbad. apply flush_none, Hbad.
  - simpl add_text.
    assert (Hstep : ∀ x, xml_char a = true →
              (r' ← flush r bfr; add_text (r' ++ [x]) [] s) = None).
    { intros x Ha. destruct (forallb xml_char bfr) eqn:Hb.
      - destruct (flush_some r bfr Hb) as (r1 & -> & _). simpl. apply IH.
        rewrite forallb_app, Hb in Hbad. simpl in Hbad. rewrite Ha in Hbad.
        exact Hbad.
      - rewrite (flush_none r bfr Hb). reflexivity. }
    destruct (is_code 9 a) eqn:Htab.
    { apply Hstep. unfold xml_char. rewrite Htab. apply orb_true_iff. left.
      apply orb_true_iff. left. apply orb_true_r. }
    destruct (is_code 13 a) eqn:Hcr; simpl orb.
    { apply Hstep. unfold xml_char. rewrite Hcr. apply orb_true_r. }
    destruct (is_code 10 a) eqn:Hlf.
    { apply Hstep. unfold xml_char. rewrite Hlf. apply orb_true_iff. left.
      apply orb_true_r. }
    apply IH. rewrite <- app_assoc. exact Hbad.
Qed.

Lemma runs_of_some s :
  forallb xml_char s = true →
  ∃ rs, runs_of s = Some rs ∧ runs_text rs = cr_to_lf s.
Proof.
  intros Hok. unfold runs_of. destruct s as [|a s]; [exists []; auto|].
  destruct (add_text_some (a :: s) [] [] Hok) as (r & -> & Hr).
  exists [r]. split; [reflexivity|]. unfold runs_text. simpl.
  rewrite app_nil_r. exact Hr.
Qed.

Lemma runs_of_none s : forallb xml_char s = false → runs_of s = None.
Proof.
  intros Hbad. unfold runs_of. destruct s as [|a s]; [discriminate|].
  rewrite (add_text_none (a :: s) [] [] Hbad). reflexivity.
Qed.

Lemma add_paragraphs_none lines :
  foldl (λ doc line, d ← doc; para ← add_paragraph line; Some (d ++ [para]))
    None lines = None.
Proof. induction lines as [|l lines IH]; [reflexivity | exact IH]. Qed.

(** The loop of [text_to_docx]: one paragraph per line, unless a line
    holds a character that lxml refuses. *)
Lemma add_paragraphs_some lines : ∀ doc,
  forallb (forallb xml_char) lines = true →
  ∃ ps, foldl (λ doc line, d ← doc; para ← add_paragraph line; Some (d ++ [para]))
          (Some doc) lines = Some (doc ++ map Paragraph ps) ∧
        map runs_text ps = map cr_to_lf lines.
Proof.
  induction lines as [|l lines IH]; intros doc Hok.
  - exists []. rewrite app_nil_r. auto.
  - simpl in Hok. apply andb_prop in Hok as [Hl Hok]. simpl foldl.
    unfold add_paragraph at 2.
    destruct (runs_of_some l Hl) as (rs & -> & Hrs). simpl.
    destruct (IH (doc ++ [Paragraph rs]) Hok) as (ps & -> & Hps).
    exists (rs :: ps). rewrite <- app_assoc. split; [reflexivity|].
    simpl. rewrite Hrs, Hps. reflexivity.
Qed.

Lemma add_paragraphs_bad lines : ∀ doc,
  forallb (forallb xml_char) lines = false →
  foldl (λ doc line, d ← doc; para ← add_paragraph line; Some (d ++ [para]))
    (Some doc) lines = None.
Proof.
  induction lines as [|l lines IH]; intros doc Hbad; [discriminate|].
  simpl in Hbad. simpl foldl. unfold add_paragraph at 2.
  destruct (forallb xml_char l) eqn:Hl.
  - destruct (runs_of_some l Hl) as (rs & -> & _). simpl. apply IH, Hbad.
  - rewrite (runs_of_none l Hl). simpl. apply add_paragraphs_none.
Qed.

Lemma forallb_join ls :
  forallb xml_char (join [LF] ls) = forallb (forallb xml_char) ls.
Proof.
  induction ls as [|k ls IH]; [reflexivity|].
  destruct ls as [|k' ls]; [simpl; rewrite andb_true_r; reflexivity|].
  rewrite join_cons_cons, !forallb_app, IH. reflexivity.
Qed.

Lemma split_on_xml s :
  forallb (forallb xml_char) (split_on LF s) = forallb xml_char s.
Proof. rewrite <- forallb_join, join_split_on. reflexivity. Qed.

Lemma paragraphs_map ps : paragraphs (map Paragraph ps) = map runs_text ps.
Proof.
  induction ps as [|rs ps IH]; [reflexivity|].
  change (runs_text rs :: paragraphs (map Paragraph ps)
          = runs_text rs :: map runs_text ps).
  rewrite IH. reflexivity.
Qed.

(** The function returns exactly when lxml accepts every character of the
    title and of the text; the document is then the heading and one
    paragraph for each line of the text. *)
Lemma text_to_docx_some text_ title :
  forallb xml_char title = true → forallb xml_char text_ = true →
  ∃ hs ps, text_to_docx text_ title = Some (Heading hs 1 :: map Paragraph ps) ∧
           runs_text hs = cr_to_lf title ∧
           map runs_text ps = map cr_to_lf (split_on LF text_).
Proof.
  intros Ht Hs. unfold text_to_docx, add_heading.
  destruct (runs_of_some title Ht) as (hs & -> & Hhs). simpl.
  rewrite <- split_on_xml in Hs.
  destruct (add_paragraphs_some (split_on LF text_) [Heading hs 1] Hs)
    as (ps & -> & Hps).
  exists hs, ps. auto.
Qed.

Lemma text_to_docx_none text_ title :
  forallb xml_char title && forallb xml_char text_ = false →
  text_to_docx text_ title = None.
Proof.
  intros Hbad. unfold text_to_docx, add_heading.
  destruct (forallb xml_char title) eqn:Ht.
  - destruct (runs_of_some title Ht) as (hs & -> & _). simpl.
    apply add_paragraphs_bad. rewrite split_on_xml. exact Hbad.
  - rewrite (runs_of_none title Ht). reflexivity.
Qed.

Lemma text_to_docx_Some_inv text_ title doc :
  text_to_docx text_ title = Some doc →
  forallb xml_char title = true ∧ forallb xml_char text_ = true ∧
  ∃ hs ps, doc = Heading hs 1 :: map Paragraph ps ∧
           runs_text hs = cr_to_lf title ∧
           map runs_text ps = map cr_to_lf (split_on LF text_).
Proof.
  intros Hd.
  destruct (forallb xml_char title && forallb xml_char text_) eqn:Hok.
  - apply andb_prop in Hok as [Ht Hs]. split; [exact Ht|]. split; [exact Hs|].
    destruct (text_to_docx_some text_ title Ht Hs) as (hs & ps & E & Hh & Hp).
    rewrite E in Hd. injection Hd as <-. eauto.
  - rewrite (text_to_docx_none _ _ Hok) in Hd. discriminate.
Qed.


Lemma count_join (P : ascii → bool) ls :
  length (filter (λ a, P a = true) (join [LF] ls))
  = length (filter (λ a, P a = true) (concat ls))
    + (if P LF then pred (length ls) else 0).
Proof.
  induction ls as [|k ls IH]; [simpl; destruct (P LF); reflexivity|].
  destruct ls as [|k' ls].
  - change (join [LF] [k]) with k. change (concat [k]) with (k ++ []).
    rewrite app_nil_r. destruct (P LF); simpl; rewrite Nat.add_0_r; reflexivity.
  - rewrite join_cons_cons.
    change (concat (k :: k' :: ls)) with (k ++ concat (k' :: ls)).
    rewrite !(filter_app (λ a, P a = true)), !length_app. unfold text in *.
    rewrite IH.
    rewrite (filter_cons (λ a, P a = true) LF).
    destruct (decide (P LF = true)) as [E|E].
    + rewrite E. simpl. lia.
    + apply not_true_is_false in E. rewrite E. simpl. lia.
Qed.

Lemma count_cr_to_lf s :
  length (filter (λ a, is_code 10 a = true) (cr_to_lf s))
  = length (filter (λ a, is_code 10 a = true) s)
    + length (filter (λ a, is_code 13 a = true) s).
Proof.
  unfold text in *. induction s as [|a s IH]; [reflexivity|].
  rewrite cr_to_lf_cons.
  rewrite !(filter_cons (λ a, is_code 10 a = true)),
    (filter_cons (λ a, is_code 13 a = true)).
  destruct (is_code 13 a) eqn:Hcr.
  - apply is_code_eq in Hcr. subst a. simpl. rewrite IH. lia.
  - destruct (is_code 10 a) eqn:Hlf; simpl;
      repeat (destruct (decide _); try congruence); simpl; rewrite IH; lia.
Qed.

Lemma split_on_count s :
  length (split_on LF s) = S (length (filter (λ a, is_code 10 a = true) s)).
Proof.
  rewrite split_on_length. f_equal.
  induction s as [|a s IH]; [reflexivity|].
  rewrite (filter_cons (λ a, a = LF)), (filter_cons (λ a, is_code 10 a = true)).
  destruct (decide (a = LF)) as [->|Hne].
  - simpl. f_equal. exact IH.
  - destruct (decide (is_code 10 a = true)) as [Hc|_]; [|exact IH].
    apply is_code_eq in Hc. contradiction.
Qed.



(** ** The [Generate] handler *)

Lemma extract_name_some resume_text :
  strip resume_text ≠ [] → is_Some (extract_name_from_resume resume_text).
Proof.
  intros Hne. unfold extract_name_from_resume.
  rewrite <- head_lookup, (splitlines_head _ Hne). simpl. eexists. reflexivity.
Qed.

Lemma compute_ats_score_some `{Arith} resume job_desc :
  analyze job_desc ≠ [] → is_Some (compute_ats_score resume job_desc).
Proof.
  intros Hne. unfold compute_ats_score, fit_transform. cbn [map].
  destruct (merge_sort text_le _) as [|t0 v] eqn:Hv.
  - apply vocabulary_nil in Hv. simpl in Hv. rewrite app_nil_r in Hv.
    apply app_eq_nil in Hv as [_ Hv]. contradiction.
  - simpl. eexists. reflexivity.
Qed.

Lemma truthy_ne s : s ≠ [] → truthy s = true.
Proof. destruct s; [contradiction | reflexivity]. Qed.

Lemma elem_infix_join sep l ls : l ∈ ls → infix l (join sep ls).
Proof.
  induction 1 as [l ls | l k ls Hin (a & b & IH)].
  - destruct ls as [|k ls]; [exists [], []; simpl; rewrite app_nil_r; reflexivity|].
    exists [], (sep ++ join sep (k :: ls)). reflexivity.
  - destruct ls as [|k' ls]; [inversion Hin|].
    rewrite join_cons_cons, IH. exists (k ++ sep ++ a), b.
    rewrite <- !app_assoc. reflexivity.
Qed.

Ltac run_handler :=
  unfold gpt_infer_role_tone, gpt_rewrite_resume, gpt_generate_cover_letter,
    chat, value_or_raise, raise, mbind, M_bind, mret, M_ret.

(** X13: A resume of white space only is never sent anywhere: the guard stops
    the handler when the text is empty, and otherwise reading the name
    raises [IndexError] before the first request. *)
Theorem on_generate_blank_resume `{Arith} create clicked job_source friend_input
    temp resume_input job_input sent :
  Forall (λ a, is_space a = true) resume_input →
  on_generate create clicked job_source friend_input temp resume_input job_input
    sent =
  (if clicked && truthy resume_input && truthy job_input
   then Raised IndexError else Returned None, sent).
Proof.
  intros Hb. apply strip_nil in Hb. unfold on_generate.
  destruct (clicked && truthy resume_input && truthy job_input); [|reflexivity].
  unfold extract_name_from_resume. rewrite Hb. reflexivity.
Qed.

Lemma on_generate_blank_resume_witness :
  on_generate (H := binary64) (λ _ _, txt "Dear team") true (txt "LinkedIn") []
    0.5%float (txt "  ") (txt "Data analyst") [] = (Raised IndexError, []).
Proof.
  apply (on_generate_blank_resume (H := binary64) (λ _ _, txt "Dear team") true
           (txt "LinkedIn") [] 0.5%float (txt "  ") (txt "Data analyst") []).
  repeat constructor.
Defined.



Lemma text_to_docx_title_some text_ title :
  forallb xml_char title = true → forallb xml_char text_ = true →
  is_Some (text_to_docx text_ title).
Proof.
  intros Ht Hs. destruct (text_to_docx_some text_ title Ht Hs) as (hs & ps & -> & _).
  eexists. reflexivity.
Qed.



(** A reply with a form feed inside: the handler stops at the document of
    the resume, after two requests. *)
Lemma on_generate_form_feed :
  ∃ r1 r2,
    on_generate (H := binary64) (λ _ _, txt "Ada" ++ [ascii_of_N 12] ++ txt "CV")
      true (txt "LinkedIn") [] 0.5%float (txt "Ada Lovelace")
      (txt "Data analyst") [] = (Raised ValueError, [r1; r2]).
Proof. eexists _, _. vm_compute. reflexivity. Qed.

(** ** The words of the cleaned job description *)

Lemma space_lower_nonword a : is_space a = true → is_word (to_lower a) = false.
Proof. each_ascii a; vm_compute; congruence. Qed.

Lemma linebreak_space a : is_linebreak a = true → is_space a = true.
Proof. each_ascii a; vm_compute; congruence. Qed.

Lemma lower_last_nonword a :
  (∀ c, last a = Some c → is_space c = true) →
  word_opt (last (lower a)) = false.
Proof.
  intros Ha. unfold lower. change (map to_lower a) with (to_lower <$> a).
  rewrite fmap_last. destruct (last a) as [c|]; [|reflexivity].
  simpl. apply space_lower_nonword, Ha. reflexivity.
Qed.

Lemma lower_head_nonword b :
  (∀ c, head b = Some c → is_space c = true) →
  word_opt (head (lower b)) = false.
Proof.
  intros Hb. destruct b as [|c b]; [reflexivity|].
  simpl. apply space_lower_nonword, Hb. reflexivity.
Qed.

Lemma strip_split s :
  ∃ u t, s = u ++ strip s ++ t ∧
         Forall (λ a, is_space a = true) u ∧ Forall (λ a, is_space a = true) t.
Proof.
  unfold strip. destruct (rstrip_split s) as (t & Hs & Ht).
  destruct (lstrip_split (rstrip s)) as (u & Hr & Hu).
  exists u, t. split; [|split; assumption].
  rewrite app_assoc, <- Hr. exact Hs.
Qed.

(** A whole word of a text is a whole word of any text around it that
    puts no word character next to it. *)
Lemma word_hit_pad C lo a b s w :
  word_opt (last a) = false → word_opt (head b) = false →
  word_hit C lo None s w → word_hit C lo None (a ++ s ++ b) w.
Proof.
  intros Ha Hb (pre & post & -> & Hw & Hl & Hpre & Hpost).
  exists (a ++ pre), (post ++ b). split; [rewrite <- !app_assoc; reflexivity|].
  split; [exact Hw|]. split; [exact Hl|]. split.
  - rewrite last_of_app. destruct pre as [|c pre].
    + rewrite last_of_nil. unfold last_of. destruct (last a); exact Ha.
    + rewrite last_of_cons. rewrite last_of_cons in Hpre. exact Hpre.
  - destruct post as [|c post]; [exact Hb | exact Hpost].
Qed.

Lemma word_hit_lower_pad C lo a b s w :
  (∀ c, last a = Some c → is_space c = true) →
  (∀ c, head b = Some c → is_space c = true) →
  word_hit C lo None (lower s) w → word_hit C lo None (lower (a ++ s ++ b)) w.
Proof.
  intros Ha Hb Hw. unfold lower. rewrite !map_app.
  apply word_hit_pad;
    [apply lower_last_nonword, Ha | apply lower_head_nonword, Hb | exact Hw].
Qed.

(** Every line of a text stands in it between line boundaries or the ends
    of the text. *)
Lemma splitlines_delimited s : ∀ l0 ls,
  splitlines s = l0 :: ls →
  (∃ b, s = l0 ++ b ∧ ∀ c, head b = Some c → is_linebreak c = true) ∧
  (∀ l, l ∈ ls →
     ∃ a c b, s = (a ++ [c]) ++ l ++ b ∧ is_linebreak c = true ∧
              ∀ c', head b = Some c' → is_linebreak c' = true).
Proof.
  remember (length s) as n eqn:Hn. revert s Hn.
  induction n as [n IH] using lt_wf_ind. intros s Hn l0 ls.
  destruct s as [|c s]; [discriminate|]. simpl splitlines.
  assert (Htail : ∀ pre s', length s' < n → is_linebreak c = true →
            (∀ d, last (c :: pre) = Some d → is_linebreak d = true) →
            c :: s = (c :: pre) ++ s' →
            ∀ l, l ∈ splitlines s' →
              ∃ a c' b, c :: s = (a ++ [c']) ++ l ++ b ∧ is_linebreak c' = true ∧
                        ∀ c'', head b = Some c'' → is_linebreak c'' = true).
  { intros pre s' Hlen Hc Hlast Hs l Hl.
    destruct (splitlines s') as [|k0 ks] eqn:E; [inversion Hl|].
    destruct (IH (length s') Hlen s' eq_refl k0 ks E) as [(b & Hb & Hhb) Hrest].
    apply elem_of_cons in Hl as [-> | Hl].
    - destruct (last (c :: pre)) as [d|] eqn:Ed; [|apply last_None in Ed; discriminate].
      apply last_Some in Ed as (a & Ea).
      exists a, d, b. split; [rewrite <- Ea, Hs, Hb; reflexivity|].
      split; [apply Hlast; reflexivity | exact Hhb].
    - destruct (Hrest l Hl) as (a & c' & b' & Hs' & Hc' & Hb').
      exists ((c :: pre) ++ a), c', b'.
      split; [rewrite Hs, Hs', <- !app_assoc; reflexivity|].
      split; [exact Hc' | exact Hb']. }
  destruct (is_linebreak c) eqn:Hc.
  - destruct s as [|d s].
    + intros [= <- <-]. split; [|intros l Hl; inversion Hl].
      exists [c]. split; [reflexivity|]. intros c' [= <-]. exact Hc.
    + destruct (is_code 13 c && is_code 10 d) eqn:Hcr.
      * intros [= <- <-]. split.
        -- exists (c :: d :: s). split; [reflexivity|]. intros c' [= <-]. exact Hc.
        -- apply (Htail [d] s); [subst n; simpl; lia | reflexivity | | reflexivity].
           intros d' [= <-]. apply andb_true_iff in Hcr as [_ Hd].
           revert Hd. clear. each_ascii d; vm_compute; congruence.
      * intros [= <- <-]. split.
        -- exists (c :: d :: s). split; [reflexivity|]. intros c' [= <-]. exact Hc.
        -- apply (Htail [] (d :: s)); [subst n; simpl; lia | reflexivity | | reflexivity].
           intros d' [= <-]. exact Hc.
  - clear Htail. destruct (splitlines s) as [|k0 ks] eqn:E.
    + intros [= <- <-]. apply splitlines_nil in E. subst s.
      split; [|intros l Hl; inversion Hl].
      exists []. split; [reflexivity|]. intros c' [=].
    + intros [= <- <-].
      destruct (IH (length s) ltac:(subst n; simpl; lia) s eq_refl k0 ks E)
        as [(b & Hb & Hhb) Hrest].
      split.
      * exists b. split; [simpl; f_equal; exact Hb | exact Hhb].
      * intros l Hl. destruct (Hrest l Hl) as (a & c' & b' & Hs' & Hc' & Hb').
        exists (c :: a), c', b'. split; [simpl; f_equal; exact Hs'|].
        split; [exact Hc' | exact Hb'].
Qed.

Lemma splitlines_between s l :
  l ∈ splitlines s →
  ∃ a b, s = a ++ l ++ b ∧
         (∀ c, last a = Some c → is_space c = true) ∧
         (∀ c, head b = Some c → is_space c = true).
Proof.
  intros Hl. destruct (splitlines s) as [|l0 ls] eqn:E; [inversion Hl|].
  destruct (splitlines_delimited s l0 ls E) as [(b & Hb & Hhb) Hrest].
  apply elem_of_cons in Hl as [-> | Hl].
  - exists [], b. split; [exact Hb|]. split; [intros c [=]|].
    intros c Hc. apply linebreak_space, Hhb, Hc.
  - destruct (Hrest l Hl) as (a & c & b' & Hs & Hc & Hb').
    exists (a ++ [c]), b'. split; [exact Hs|]. split.
    + intros c'. rewrite last_snoc. intros [= <-]. apply linebreak_space, Hc.
    + intros c' Hc'. apply linebreak_space, Hb', Hc'.
Qed.

Section CleanedWords.
Variables (C : ascii → bool) (lo : nat).
Hypothesis C_word : ∀ a, C a = true → is_word a = true.
Hypothesis lo_pos : 0 < lo.

(** A whole word does not reach over a character that is no word
    character. *)
Lemma word_hit_app_sep k c s w :
  is_word c = false →
  word_hit C lo None (k ++ c :: s) w →
  word_hit C lo None k w ∨ word_hit C lo None s w.
Proof.
  intros Hc (pre & post & Hs & Hw & Hl & Hpre & Hpost).
  assert (Hnc : c ∉ w).
  { intros Hin. rewrite Forall_forall in Hw. apply Hw, C_word in Hin. congruence. }
  symmetry in Hs. apply app_eq_inv in Hs as [(d & Hp & Hd) | (d & Hk & Hd)];
    [destruct d as [|x d] | left].
  - exfalso. simpl in Hd. destruct w as [|y w]; [simpl in Hl; lia|].
    injection Hd as <- _. apply Hnc. left.
  - right. injection Hd as <- Hd. exists d, post. split; [exact Hd|].
    split; [exact Hw|]. split; [exact Hl|]. split; [|exact Hpost].
    rewrite Hp, last_of_app, last_of_cons in Hpre.
    destruct d as [|y d]; [reflexivity|].
    rewrite last_of_cons in Hpre |- *. exact Hpre.
  - apply app_eq_inv in Hd as [(e & Hw' & He) | (e & He & Hpost')].
    + destruct e as [|x e].
      * exists pre, []. rewrite app_nil_r in Hw'. subst d.
        split; [rewrite app_nil_r; exact Hk|]. auto.
      * injection He as <- _. exfalso. apply Hnc. rewrite Hw', elem_of_app.
        right. left.
    + exists pre, e. split; [rewrite Hk, He; reflexivity|].
      split; [exact Hw|]. split; [exact Hl|]. split; [exact Hpre|].
      destruct e as [|x e]; [reflexivity|]. rewrite Hpost' in Hpost. exact Hpost.
Qed.

Lemma word_hit_join_lines ls w :
  word_hit C lo None (join [LF] ls) w → ∃ k, k ∈ ls ∧ word_hit C lo None k w.
Proof.
  induction ls as [|k ls IH]; intros Hw.
  - exfalso. exact (word_hit_nil C lo lo_pos None w Hw).
  - destruct ls as [|k' ls]; [exists k; split; [left | exact Hw]|].
    rewrite join_cons_cons in Hw.
    apply word_hit_app_sep in Hw as [Hw | Hw]; [| |reflexivity].
    + exists k. split; [left | exact Hw].
    + destruct (IH Hw) as (k0 & Hin & Hk0). exists k0. split; [right|]; assumption.
Qed.

(** A whole word of the lower-case cleaned text is one of the lower-case
    text. *)
Lemma clean_word_hit text_ w :
  word_hit C lo None (lower (clean_job_description text_)) w →
  word_hit C lo None (lower text_) w.
Proof.
  unfold clean_job_description.
  destruct (clean_loop_kept (splitlines text_) []) as (kept & cut & Hs & -> & _).
  simpl app. intros Hw.
  destruct (strip_split (join [LF] kept)) as (u & t & Hj & Hu & Ht).
  apply (word_hit_lower_pad C lo u t) in Hw.
  - rewrite <- Hj, lower_join in Hw.
    apply word_hit_join_lines in Hw as (k' & Hin & Hw).
    apply list_elem_of_fmap in Hin as (k & -> & Hin).
    assert (Hl : k ∈ splitlines text_) by (rewrite Hs, elem_of_app; left; exact Hin).
    apply splitlines_between in Hl as (a & b & -> & Ha & Hb).
    apply word_hit_lower_pad; assumption.
  - intros c Hc. rewrite Forall_forall in Hu. apply Hu.
    apply last_Some_elem_of, Hc.
  - intros c Hc. rewrite Forall_forall in Ht. apply Ht.
    destruct t as [|x t]; [discriminate|]. injection Hc as <-. left.
Qed.

End CleanedWords.

Lemma extract_keywords_elem text_ w :
  w ∈ extract_keywords text_ ↔ word_hit is_letter 4 None (lower text_) w.
Proof.
  unfold extract_keywords. rewrite sorted_set_elem.
  change keyword_re with (word_re is_letter 4).
  apply findall_word_re; [|lia].
  intros a. each_ascii a; vm_compute; congruence.
Qed.

(** X17: Cleaning the job description brings in no word: every token the
    vectorizer finds in the cleaned text, and every keyword of the cleaned
    text, is one of the text as pasted. *)
Theorem clean_job_description_words (text_ : text) :
  Forall (λ w, w ∈ analyze text_) (analyze (clean_job_description text_)) ∧
  Forall (λ w, w ∈ extract_keywords text_)
    (extract_keywords (clean_job_description text_)).
Proof.
  split; apply Forall_forall; intros w.
  - rewrite !analyze_spec. apply clean_word_hit; [auto | lia].
  - rewrite !extract_keywords_elem. apply clean_word_hit; [|lia].
    intros a. each_ascii a; vm_compute; congruence.
Qed.

(** X18: Every keyword of a text is a token of the vectorizer for that text. *)
Theorem extract_keywords_tokens (text_ : text) :
  Forall (λ w, w ∈ analyze text_) (extract_keywords text_).
Proof.
  apply Forall_forall. intros w.
  rewrite extract_keywords_elem, analyze_spec.
  intros (pre & post & Hs & Hw & Hl & Hb). exists pre, post.
  split; [exact Hs|]. split; [|split; [lia | exact Hb]].
  eapply Forall_impl; [exact Hw|]. intros a. simpl.
  each_ascii a; vm_compute; congruence.
Qed.
